(** * PgQueuer.buffers: the job buffer, its size and timeout triggers

    A shallow embedding of [src/PgQueuer/buffers.py].  The buffer is a
    record, every coroutine is a function in a small state-and-exception
    monad over a [World] (the buffer, the outside world, and a ghost trace
    of what the coroutine did), and the monitor loop is a recursive function
    over the schedule of what other tasks do while it sleeps.

    Conventions.
    - A [datetime] is its number of microseconds, a [timedelta] is a number
      of microseconds; both are [Z], so subtraction and [>=] are exact.
    - The clock and the flush callback are external.  Everything external
      lives in [Env]; the clock is a function [Env -> Z * Env], the callback
      a function from the batch and [Env] to an optional exception and the
      next [Env].  The callback is handed the list object itself; the model
      gives it the list's contents at the call and assumes it does not
      mutate the list.
    - An [asyncio.Lock] is not reentrant: acquiring it while it is held
      suspends the task.  In this sequential model that outcome is
      [Blocked].
    - Tasks switch only at an [await].  The awaits of [add_job] and of the
      monitor's wake-up lie inside [async with self.lock], so these run one
      after the other; [run_calls] runs whole calls in sequence, and the
      monitor's sleep is where the calls of other tasks are scheduled.
    - [flush_jobs] holds no lock while it awaits the callback, so a direct
      call of it can be overlapped by other calls.  [run_calls] describes
      the runs in which that does not happen; [flush_jobs_overlapped] is a
      direct call together with what other tasks do during its await. *)

From Stdlib Require Import ZArith List Bool Lia.
Import ListNotations.
Local Open Scope Z_scope.

(** A scripted outside world for concrete runs: jobs, statuses and
    exceptions are integers; the clock returns the next scripted reading
    (0 when none is left), the callback the next scripted outcome (it
    returns normally when none is left). *)
Module Script.

Record t : Type := mk {
  readings : list Z;
  outcomes : list (option Z)
}.

Definition clock (e : t) : Z * t :=
  match readings e with
  | [] => (0, e)
  | r :: rs => (r, mk rs (outcomes e))
  end.

Definition sink (batch : list (Z * Z)) (e : t) : option Z * t :=
  match outcomes e with
  | [] => (None, e)
  | o :: os => (o, mk (readings e) os)
  end.

End Script.

Module Buffers.

Section Model.

(** Opaque payloads ([models.Job], [models.STATUS_LOG]), the exceptions a
    callback may raise, and the outside world. *)
Variables Job STATUS_LOG Exn Env : Type.

(** [_perf_counter_dt()]: the clock reading, in microseconds. *)
Variable _perf_counter_dt : Env -> Z * Env.

Definition entry : Type := (Job * STATUS_LOG)%type.

(** class JobBuffer: the attributes set by [__init__]. *)
Record JobBuffer : Type := mkJobBuffer {
  max_size : Z;
  timeout : Z;
  flush_callback : list entry -> Env -> option Exn * Env;
  alive : bool;
  events : list entry;
  last_event_time : Z;
  lock : bool  (* true while the asyncio.Lock is held *)
}.

(** Ghost trace: the lock operations, the writes to the shared attributes
    and the callback invocations, in the order they happen. *)
Inductive action : Type :=
| Acquire
| Release
| Append (e : entry)
| Stamp (t : Z)
| Callback (batch : list entry) (raised : option Exn)
| Clear.

Record World : Type := mkWorld {
  buf : JobBuffer;
  env : Env;
  trace : list action
}.

(** Outcome of a coroutine: it returns, it raises, or it is suspended on
    the lock with nobody left to release it. *)
Inductive res (A : Type) : Type :=
| Ok (a : A)
| Raise (x : Exn)
| Blocked.
Arguments Ok {A} a.
Arguments Raise {A} x.
Arguments Blocked {A}.

Definition M (A : Type) : Type := World -> res A * World.

Definition ret {A} (a : A) : M A := fun w => (Ok a, w).

Definition bind {A B} (m : M A) (k : A -> M B) : M B :=
  fun w =>
    match m w with
    | (Ok a, w') => k a w'
    | (Raise x, w') => (Raise x, w')
    | (Blocked, w') => (Blocked, w')
    end.

Notation "x <- m ;; k" := (bind m (fun x => k))
  (at level 61, m at next level, right associativity).
Notation "m ;; k" := (bind m (fun _ => k))
  (at level 61, right associativity).

(** Primitive steps. *)
Definition emit (a : action) : M unit :=
  fun w => (Ok tt, mkWorld (buf w) (env w) (trace w ++ [a])).

Definition get : M JobBuffer := fun w => (Ok (buf w), w).

Definition put (b : JobBuffer) : M unit :=
  fun w => (Ok tt, mkWorld b (env w) (trace w)).

Definition now : M Z :=
  fun w =>
    let (t, e) := _perf_counter_dt (env w) in
    (Ok t, mkWorld (buf w) e (trace w)).

Definition set_events (l : list entry) (b : JobBuffer) : JobBuffer :=
  mkJobBuffer (max_size b) (timeout b) (flush_callback b) (alive b)
              l (last_event_time b) (lock b).

Definition set_last_event_time (t : Z) (b : JobBuffer) : JobBuffer :=
  mkJobBuffer (max_size b) (timeout b) (flush_callback b) (alive b)
              (events b) t (lock b).

Definition set_lock (h : bool) (b : JobBuffer) : JobBuffer :=
  mkJobBuffer (max_size b) (timeout b) (flush_callback b) (alive b)
              (events b) (last_event_time b) h.

Definition set_alive (a : bool) (b : JobBuffer) : JobBuffer :=
  mkJobBuffer (max_size b) (timeout b) (flush_callback b) a
              (events b) (last_event_time b) (lock b).

(** [await self.flush_callback(batch)]: one invocation, recorded with its
    outcome; an exception propagates. *)
Definition call_flush_callback (batch : list entry) : M unit :=
  fun w =>
    let (r, e) := flush_callback (buf w) batch (env w) in
    let w' := mkWorld (buf w) e (trace w ++ [Callback batch r]) in
    match r with
    | Some x => (Raise x, w')
    | None => (Ok tt, w')
    end.

(** [async with self.lock: body].  The lock is released on every way out
    of the body, also when it raises. *)
Definition with_lock {A} (body : M A) : M A :=
  fun w =>
    if lock (buf w) then (Blocked, w)
    else
      let w1 := mkWorld (set_lock true (buf w)) (env w)
                        (trace w ++ [Acquire]) in
      match body w1 with
      | (Blocked, w2) => (Blocked, w2)
      | (r, w2) =>
          (r, mkWorld (set_lock false (buf w2)) (env w2)
                      (trace w2 ++ [Release]))
      end.

(** def __init__(self, max_size, timeout, flush_callback) *)
Definition __init__ (max_size0 timeout0 : Z)
    (flush_callback0 : list entry -> Env -> option Exn * Env)
    (e : Env) : World :=
  let (t, e') := _perf_counter_dt e in
  mkWorld (mkJobBuffer max_size0 timeout0 flush_callback0 true [] t false)
          e' [].

(** async def flush_jobs(self) *)
Definition flush_jobs : M unit :=
  b <- get ;;
  match events b with
  | [] => ret tt
  | _ :: _ =>
      call_flush_callback (events b) ;;
      b' <- get ;;
      put (set_events [] b') ;;
      emit Clear
  end.

(** async def add_job(self, job, status) *)
Definition add_job (job : Job) (status : STATUS_LOG) : M unit :=
  with_lock (
    b <- get ;;
    put (set_events (events b ++ [(job, status)]) b) ;;
    emit (Append (job, status)) ;;
    t <- now ;;
    b <- get ;;
    put (set_last_event_time t b) ;;
    emit (Stamp t) ;;
    b <- get ;;
    if max_size b <=? Z.of_nat (length (events b))
    then flush_jobs
    else ret tt).

(** One pass of the body of [monitor]'s loop after the sleep:
    [async with self.lock: if now - last_event_time >= timeout: flush]. *)
Definition monitor_wake : M unit :=
  with_lock (
    t <- now ;;
    b <- get ;;
    if timeout b <=? t - last_event_time b
    then flush_jobs
    else ret tt).

(** A producer awaiting [add_job] for each entry in turn; the first
    exception ends it. *)
Fixpoint add_jobs (l : list entry) : M unit :=
  match l with
  | [] => ret tt
  | (job, status) :: l' => add_job job status ;; add_jobs l'
  end.

(** What tasks can do to the buffer: the three coroutines' bodies and
    [alive.clear()] / [alive.set()]. *)
Inductive call : Type :=
| AddJob (job : Job) (status : STATUS_LOG)
| FlushJobs
| MonitorWake
| AliveClear
| AliveSet.

Definition run_call (c : call) : M unit :=
  match c with
  | AddJob job status => add_job job status
  | FlushJobs => flush_jobs
  | MonitorWake => monitor_wake
  | AliveClear => b <- get ;; put (set_alive false b)
  | AliveSet => b <- get ;; put (set_alive true b)
  end.

(** A sequence of calls made by tasks, one after the other.  An exception
    goes to the caller of that call; the buffer carries on. *)
Fixpoint run_calls (cs : list call) (w : World) : World :=
  match cs with
  | [] => w
  | c :: cs' => run_calls cs' (snd (run_call c w))
  end.

(** State of the monitor coroutine when the schedule ends. *)
Inductive monitor_state : Type := Running | Stopped.

(** async def monitor(self):
      while self.alive.is_set():
          await asyncio.sleep(...)        -- other tasks run: [during]
          async with self.lock: ...       -- [monitor_wake]
    The schedule lists, per iteration, the calls other tasks make while
    the monitor sleeps.  [Running]: the schedule ended with the monitor
    still in its loop. *)
Fixpoint monitor (sched : list (list call)) : M monitor_state :=
  fun w =>
    if alive (buf w) then
      match sched with
      | [] => (Ok Running, w)
      | during :: sched' =>
          (monitor_wake ;; monitor sched') (run_calls during w)
      end
    else (Ok Stopped, w).

(** ** Reading traces *)

(** The batches handed to the callback, oldest first. *)
Fixpoint batches (tr : list action) : list (list entry) :=
  match tr with
  | [] => []
  | Callback b _ :: tr' => b :: batches tr'
  | _ :: tr' => batches tr'
  end.

(** The entries appended, oldest first. *)
Fixpoint appended (tr : list action) : list entry :=
  match tr with
  | [] => []
  | Append e :: tr' => e :: appended tr'
  | _ :: tr' => appended tr'
  end.

(** No callback invocation in [tr] returned normally. *)
Fixpoint no_success (tr : list action) : bool :=
  match tr with
  | [] => true
  | Callback _ None :: _ => false
  | _ :: tr' => no_success tr'
  end.

(** The trace of one coroutine call keeps the lock discipline when every
    write to [events] / [last_event_time] and every callback invocation
    happens between an [Acquire] and the matching [Release] of the same
    call.  [held]: this call holds the lock. *)
Fixpoint lock_disciplined (held : bool) (tr : list action) : bool :=
  match tr with
  | [] => true
  | Acquire :: tr' => lock_disciplined true tr'
  | Release :: tr' => lock_disciplined false tr'
  | _ :: tr' => held && lock_disciplined held tr'
  end.

(** The entries a sequence of calls hands to [add_job], in call order. *)
Fixpoint entries_of (cs : list call) : list entry :=
  match cs with
  | [] => []
  | AddJob job status :: cs' => (job, status) :: entries_of cs'
  | _ :: cs' => entries_of cs'
  end.

Definition add_call (e : entry) : call := AddJob (fst e) (snd e).

(** The callback bound to the buffer raises whenever it is invoked. *)
Definition always_fails (b : JobBuffer) : Prop :=
  forall batch e, fst (flush_callback b batch e) <> None.

(** Replaying a trace against the pending entries.  [pending_after] and
    [clear_due_after] give the state after the trace: what is pending, and
    whether the last action was a callback invocation that returned (the
    only moment a [Clear] may follow).  [consistent] says every callback
    invocation of the trace was handed exactly what was pending, and every
    [Clear] directly follows an invocation that returned. *)
Definition step_pending (pending : list entry) (a : action) : list entry :=
  match a with
  | Append e => pending ++ [e]
  | Clear => []
  | _ => pending
  end.

Definition step_clear_due (a : action) : bool :=
  match a with
  | Callback _ None => true
  | _ => false
  end.

Fixpoint pending_after (pending : list entry) (tr : list action)
  : list entry :=
  match tr with
  | [] => pending
  | a :: tr' => pending_after (step_pending pending a) tr'
  end.

Fixpoint clear_due_after (due : bool) (tr : list action) : bool :=
  match tr with
  | [] => due
  | a :: tr' => clear_due_after (step_clear_due a) tr'
  end.

Fixpoint consistent (pending : list entry) (due : bool) (tr : list action)
  : Prop :=
  match tr with
  | [] => True
  | a :: tr' =>
      match a with
      | Callback b _ => b = pending
      | Clear => due = true
      | _ => True
      end /\
      consistent (step_pending pending a) (step_clear_due a) tr'
  end.

(** The part of the trace written on the way from [w] to [w']. *)
Definition written (w w' : World) : list action :=
  skipn (length (trace w)) (trace w').

(** What a single call adds to the trace and does to the buffer, by
    cases.  [d] is the part of the trace the call wrote. *)
Inductive call_shape (w : World) : res unit -> World -> list action -> Prop :=
| shape_blocked :
    call_shape w Blocked w []
| shape_quiet w' :
    trace w' = trace w ->
    events (buf w') = events (buf w) ->
    last_event_time (buf w') = last_event_time (buf w) ->
    lock (buf w') = lock (buf w) ->
    call_shape w (Ok tt) w' []
| shape_idle w' :
    events (buf w') = events (buf w) ->
    last_event_time (buf w') = last_event_time (buf w) ->
    lock (buf w') = false ->
    alive (buf w') = alive (buf w) ->
    call_shape w (Ok tt) w' [Acquire; Release]
| shape_added w' e t :
    events (buf w') = events (buf w) ++ [e] ->
    last_event_time (buf w') = t ->
    lock (buf w') = false ->
    alive (buf w') = alive (buf w) ->
    call_shape w (Ok tt) w' [Acquire; Append e; Stamp t; Release]
| shape_added_flushed w' e t :
    events (buf w') = [] ->
    last_event_time (buf w') = t ->
    lock (buf w') = false ->
    alive (buf w') = alive (buf w) ->
    call_shape w (Ok tt) w'
      [Acquire; Append e; Stamp t;
       Callback (events (buf w) ++ [e]) None; Clear; Release]
| shape_added_failed w' e t x :
    events (buf w') = events (buf w) ++ [e] ->
    last_event_time (buf w') = t ->
    lock (buf w') = false ->
    alive (buf w') = alive (buf w) ->
    call_shape w (Raise x) w'
      [Acquire; Append e; Stamp t;
       Callback (events (buf w) ++ [e]) (Some x); Release]
| shape_flushed w' :
    events (buf w) <> [] ->
    events (buf w') = [] ->
    last_event_time (buf w') = last_event_time (buf w) ->
    lock (buf w') = lock (buf w) ->
    alive (buf w') = alive (buf w) ->
    call_shape w (Ok tt) w' [Callback (events (buf w)) None; Clear]
| shape_failed w' x :
    events (buf w) <> [] ->
    events (buf w') = events (buf w) ->
    last_event_time (buf w') = last_event_time (buf w) ->
    lock (buf w') = lock (buf w) ->
    alive (buf w') = alive (buf w) ->
    call_shape w (Raise x) w' [Callback (events (buf w)) (Some x)]
| shape_woke_flushed w' :
    events (buf w) <> [] ->
    events (buf w') = [] ->
    last_event_time (buf w') = last_event_time (buf w) ->
    lock (buf w') = false ->
    alive (buf w') = alive (buf w) ->
    call_shape w (Ok tt) w'
      [Acquire; Callback (events (buf w)) None; Clear; Release]
| shape_woke_failed w' x :
    events (buf w) <> [] ->
    events (buf w') = events (buf w) ->
    last_event_time (buf w') = last_event_time (buf w) ->
    lock (buf w') = false ->
    alive (buf w') = alive (buf w) ->
    call_shape w (Raise x) w'
      [Acquire; Callback (events (buf w)) (Some x); Release].

(** The batches on which the callback returned normally, oldest first. *)
Fixpoint delivered (tr : list action) : list (list entry) :=
  match tr with
  | [] => []
  | Callback b None :: tr' => b :: delivered tr'
  | _ :: tr' => delivered tr'
  end.

(** ** A direct flush overlapped by other calls

    async def flush_jobs(self):
        if self.events:
            await self.flush_callback(self.events)   -- other tasks run
            self.events.clear()
    called by itself, holding no lock.  The callback is invoked on what is
    pending; [during] are the calls other tasks make before it completes
    ([add_job] and the monitor get the lock at once, nobody holds it); then
    the callback's exception propagates, or [events] -- whatever it holds
    by now -- is cleared. *)
Definition flush_jobs_overlapped (during : list call) : M unit :=
  b <- get ;;
  match events b with
  | [] => ret tt
  | _ :: _ =>
      fun w =>
        let (r, e) := flush_callback (buf w) (events (buf w)) (env w) in
        let w1 :=
          run_calls during
            (mkWorld (buf w) e
                     (trace w ++ [Callback (events (buf w)) r])) in
        match r with
        | Some x => (Raise x, w1)
        | None => (b' <- get ;; put (set_events [] b') ;; emit Clear) w1
        end
  end.

(** ** The coroutines with every access to the shared attributes logged

    The same three coroutines once more, statement by statement, in a
    monad that also keeps a log of the accesses to [self.events] and
    [self.last_event_time], reads included, of the lock operations and of
    the await of the callback. *)
Inductive access : Type :=
| TakeLock
| GiveLock
| ReadEvents
| WriteEvents
| ReadLastEventTime
| WriteLastEventTime
| AwaitCallback.

Definition Logged (A : Type) : Type :=
  World * list access -> res A * (World * list access).

Definition retL {A} (a : A) : Logged A := fun s => (Ok a, s).

Definition bindL {A B} (m : Logged A) (k : A -> Logged B) : Logged B :=
  fun s =>
    match m s with
    | (Ok a, s') => k a s'
    | (Raise x, s') => (Raise x, s')
    | (Blocked, s') => (Blocked, s')
    end.

Notation "m >>= k" := (bindL m k) (at level 58, left associativity).
Notation "m >>> k" := (bindL m (fun _ => k))
  (at level 62, right associativity).

(** A step of the plain monad; it logs nothing. *)
Definition lift {A} (m : M A) : Logged A :=
  fun s => let (r, w') := m (fst s) in (r, (w', snd s)).

Definition note (a : access) : Logged unit :=
  fun s => (Ok tt, (fst s, snd s ++ [a])).

(** [async with self.lock: body], logged. *)
Definition with_lock_logged {A} (body : Logged A) : Logged A :=
  fun s =>
    if lock (buf (fst s)) then (Blocked, s)
    else
      let s1 := (mkWorld (set_lock true (buf (fst s))) (env (fst s))
                         (trace (fst s) ++ [Acquire]),
                 snd s ++ [TakeLock]) in
      match body s1 with
      | (Blocked, s2) => (Blocked, s2)
      | (r, s2) =>
          (r, (mkWorld (set_lock false (buf (fst s2))) (env (fst s2))
                       (trace (fst s2) ++ [Release]),
               snd s2 ++ [GiveLock]))
      end.

(** async def flush_jobs(self), logged *)
Definition flush_jobs_logged : Logged unit :=
  note ReadEvents >>>                       (* if self.events: *)
  (lift get >>= fun b =>
   match events b with
   | [] => retL tt
   | _ :: _ =>
       note ReadEvents >>>                  (* the argument self.events *)
       note AwaitCallback >>>               (* await self.flush_callback(..) *)
       lift (call_flush_callback (events b)) >>>
       note WriteEvents >>>                 (* self.events.clear() *)
       (lift get >>= fun b' =>
        lift (put (set_events [] b')) >>>
        lift (emit Clear))
   end).

(** async def add_job(self, job, status), logged *)
Definition add_job_logged (job : Job) (status : STATUS_LOG) : Logged unit :=
  with_lock_logged (
    note WriteEvents >>>                    (* self.events.append(..) *)
    (lift get >>= fun b =>
     lift (put (set_events (events b ++ [(job, status)]) b)) >>>
     lift (emit (Append (job, status))) >>>
     (lift now >>= fun t =>
      note WriteLastEventTime >>>           (* self.last_event_time = .. *)
      (lift get >>= fun b =>
       lift (put (set_last_event_time t b)) >>>
       lift (emit (Stamp t)) >>>
       note ReadEvents >>>                  (* len(self.events) *)
       (lift get >>= fun b =>
        if max_size b <=? Z.of_nat (length (events b))
        then flush_jobs_logged
        else retL tt))))).

(** The body of [monitor]'s loop after the sleep, logged. *)
Definition monitor_wake_logged : Logged unit :=
  with_lock_logged (
    lift now >>= fun t =>
    note ReadLastEventTime >>>              (* .. - self.last_event_time *)
    (lift get >>= fun b =>
     if timeout b <=? t - last_event_time b
     then flush_jobs_logged
     else retL tt)).

(** The accesses a logged coroutine makes when started in [w]. *)
Definition accesses {A} (m : Logged A) (w : World) : list access :=
  snd (snd (m (w, []))).

(** What a logged coroutine does apart from logging. *)
Definition unlogged {A} (m : Logged A) (w : World) : res A * World :=
  (fst (m (w, [])), fst (snd (m (w, [])))).

(** Every access of the log other than the lock operations themselves lies
    between a [TakeLock] and the next [GiveLock]; [held]: the lock is held
    by this coroutine when the log starts. *)
Fixpoint under_lock (held : bool) (l : list access) : bool :=
  match l with
  | [] => true
  | TakeLock :: l' => under_lock true l'
  | GiveLock :: l' => under_lock false l'
  | _ :: l' => held && under_lock held l'
  end.

(** Splits a membership in an explicit list into its cases. *)
Ltac split_in H :=
  cbn in H;
  repeat match type of H with
         | _ \/ _ => destruct H as [H|H]; try discriminate H
         | False => contradiction
         end.

(** ** What each coroutine computes, in closed form *)

Lemma flush_jobs_nil (w : World) :
  events (buf w) = [] -> flush_jobs w = (Ok tt, w).
Proof.
  intros H. unfold flush_jobs, bind, get. rewrite H. reflexivity.
Qed.

Lemma flush_jobs_cons (w : World) :
  events (buf w) <> [] ->
  flush_jobs w =
  let (r, e) := flush_callback (buf w) (events (buf w)) (env w) in
  match r with
  | Some x =>
      (Raise x,
       mkWorld (buf w) e (trace w ++ [Callback (events (buf w)) (Some x)]))
  | None =>
      (Ok tt,
       mkWorld (set_events [] (buf w)) e
               (trace w ++ [Callback (events (buf w)) None; Clear]))
  end.
Proof.
  intros H. unfold flush_jobs, bind, get, call_flush_callback.
  destruct (events (buf w)) as [|x l] eqn:E; [congruence|].
  simpl. destruct (flush_callback (buf w) (x :: l) (env w)) as [[y|] e];
    simpl; [reflexivity|].
  unfold emit; simpl. rewrite <- app_assoc. reflexivity.
Qed.

Lemma snoc_not_nil {A} (l : list A) (a : A) : l ++ [a] <> [].
Proof. destruct l; discriminate. Qed.

Lemma add_job_eq (job : Job) (status : STATUS_LOG) (w : World) :
  lock (buf w) = false ->
  add_job job status w =
  let (t, e1) := _perf_counter_dt (env w) in
  let batch := events (buf w) ++ [(job, status)] in
  let b1 := set_last_event_time t
              (set_events batch (set_lock true (buf w))) in
  let tr1 := trace w ++ [Acquire; Append (job, status); Stamp t] in
  if max_size (buf w) <=? Z.of_nat (length batch) then
    let (r, e2) := flush_callback (buf w) batch e1 in
    match r with
    | Some x =>
        (Raise x,
         mkWorld (set_lock false b1) e2
                 (tr1 ++ [Callback batch (Some x); Release]))
    | None =>
        (Ok tt,
         mkWorld (set_lock false (set_events [] b1)) e2
                 (tr1 ++ [Callback batch None; Clear; Release]))
    end
  else (Ok tt, mkWorld (set_lock false b1) e1 (tr1 ++ [Release])).
Proof.
  intros L. unfold add_job, with_lock. rewrite L.
  unfold bind, get, put, emit, now; cbn.
  destruct (_perf_counter_dt (env w)) as [t e1]; cbn.
  destruct (max_size (buf w) <=? _) eqn:G.
  - rewrite flush_jobs_cons by (cbn; apply snoc_not_nil). cbn.
    destruct (flush_callback (buf w) _ e1) as [[x|] e2];
      cbn; rewrite <- !app_assoc; reflexivity.
  - cbn. rewrite <- !app_assoc. reflexivity.
Qed.

Lemma monitor_wake_eq (w : World) :
  lock (buf w) = false ->
  monitor_wake w =
  let (t, e1) := _perf_counter_dt (env w) in
  let b1 := set_lock true (buf w) in
  let tr1 := trace w ++ [Acquire] in
  if (timeout (buf w) <=? t - last_event_time (buf w))
       && negb (Nat.eqb (length (events (buf w))) 0) then
    let (r, e2) := flush_callback (buf w) (events (buf w)) e1 in
    match r with
    | Some x =>
        (Raise x,
         mkWorld (set_lock false b1) e2
                 (tr1 ++ [Callback (events (buf w)) (Some x); Release]))
    | None =>
        (Ok tt,
         mkWorld (set_lock false (set_events [] b1)) e2
                 (tr1 ++ [Callback (events (buf w)) None; Clear; Release]))
    end
  else (Ok tt, mkWorld (set_lock false b1) e1 (tr1 ++ [Release])).
Proof.
  intros L. unfold monitor_wake, with_lock. rewrite L.
  unfold bind, get, now; cbn.
  destruct (_perf_counter_dt (env w)) as [t e1]; cbn.
  destruct (timeout (buf w) <=? _) eqn:G; cbn [andb].
  - destruct (events (buf w)) as [|x l] eqn:E.
    + rewrite flush_jobs_nil by (cbn; exact E). reflexivity.
    + rewrite flush_jobs_cons by (cbn; rewrite E; discriminate).
      cbn. rewrite E.
      destruct (flush_callback (buf w) (x :: l) e1) as [[y|] e2];
        cbn; rewrite <- !app_assoc; reflexivity.
  - reflexivity.
Qed.

(** ** Empty flush *)

(** C5. Calling [flush_jobs] while [events] is empty returns at once: the
    callback is not invoked and nothing changes, neither the buffer nor
    the outside world nor the trace. *)
Theorem flush_jobs_empty_is_noop (w : World) :
  events (buf w) = [] ->
  flush_jobs w = (Ok tt, w) /\
  batches (trace (snd (flush_jobs w))) = batches (trace w).
Proof.
  intros H. rewrite (flush_jobs_nil w H). split; reflexivity.
Qed.

(** ** Trace bookkeeping *)

Lemma batches_app (t1 t2 : list action) :
  batches (t1 ++ t2) = batches t1 ++ batches t2.
Proof.
  induction t1 as [|a t1 IH]; [reflexivity|].
  destruct a; cbn; rewrite ?IH; reflexivity.
Qed.

Lemma appended_app (t1 t2 : list action) :
  appended (t1 ++ t2) = appended t1 ++ appended t2.
Proof.
  induction t1 as [|a t1 IH]; [reflexivity|].
  destruct a; cbn; rewrite ?IH; reflexivity.
Qed.

Lemma with_lock_held {A} (body : M A) (w : World) :
  lock (buf w) = true -> with_lock body w = (Blocked, w).
Proof. intros L. unfold with_lock. rewrite L. reflexivity. Qed.

Lemma run_call_shape (c : call) (w : World) :
  exists d,
    trace (snd (run_call c w)) = trace w ++ d /\
    call_shape w (fst (run_call c w)) (snd (run_call c w)) d.
Proof.
  destruct c as [job status| | | |]; cbn [run_call].
  - destruct (lock (buf w)) eqn:L.
    + unfold add_job. rewrite with_lock_held by exact L.
      exists []. rewrite app_nil_r. split; [reflexivity|constructor].
    + rewrite add_job_eq by exact L.
      destruct (_perf_counter_dt (env w)) as [t e1]. cbv zeta.
      destruct (max_size (buf w) <=? _).
      * destruct (flush_callback (buf w) _ e1) as [[x|] e2];
          eexists; (split; [cbn; rewrite <- app_assoc; reflexivity|]);
          constructor; reflexivity.
      * eexists; (split; [cbn; rewrite <- app_assoc; reflexivity|]).
        constructor; reflexivity.
  - destruct (events (buf w)) as [|e l] eqn:E.
    + rewrite flush_jobs_nil by exact E. exists [].
      rewrite app_nil_r. split; [reflexivity|].
      constructor; reflexivity.
    + rewrite flush_jobs_cons by (rewrite E; discriminate). rewrite E.
      destruct (flush_callback (buf w) (e :: l) (env w)) as [[x|] e2];
        eexists; (split; [cbn; reflexivity|]); rewrite <- E;
        constructor; cbn; congruence.
  - destruct (lock (buf w)) eqn:L.
    + unfold monitor_wake. rewrite with_lock_held by exact L.
      exists []. rewrite app_nil_r. split; [reflexivity|constructor].
    + rewrite monitor_wake_eq by exact L.
      destruct (_perf_counter_dt (env w)) as [t e1]. cbv zeta.
      destruct (_ && _) eqn:G.
      * apply andb_prop in G. destruct G as [_ G].
        assert (NE : events (buf w) <> []).
        { intros E. rewrite E in G. discriminate. }
        destruct (flush_callback (buf w) _ e1) as [[x|] e2];
          eexists; (split; [cbn; rewrite <- app_assoc; reflexivity|]);
          constructor; solve [reflexivity | exact NE].
      * eexists; (split; [cbn; rewrite <- app_assoc; reflexivity|]).
        constructor; reflexivity.
  - exists []. rewrite app_nil_r. split; [reflexivity|].
    constructor; reflexivity.
  - exists []. rewrite app_nil_r. split; [reflexivity|].
    constructor; reflexivity.
Qed.

(** No call changes what [__init__] bound: capacity, timeout, callback. *)
Lemma run_call_config (c : call) (w : World) :
  max_size (buf (snd (run_call c w))) = max_size (buf w) /\
  timeout (buf (snd (run_call c w))) = timeout (buf w) /\
  flush_callback (buf (snd (run_call c w))) = flush_callback (buf w).
Proof.
  destruct c as [job status| | | |]; cbn [run_call].
  - destruct (lock (buf w)) eqn:L.
    + unfold add_job. rewrite with_lock_held by exact L. auto.
    + rewrite add_job_eq by exact L.
      destruct (_perf_counter_dt (env w)) as [t e1]. cbv zeta.
      destruct (max_size (buf w) <=? _); [|cbn; auto].
      destruct (flush_callback (buf w) _ e1) as [[x|] e2]; cbn; auto.
  - destruct (events (buf w)) as [|e l] eqn:E.
    + rewrite flush_jobs_nil by exact E. auto.
    + rewrite flush_jobs_cons by (rewrite E; discriminate).
      destruct (flush_callback (buf w) _ (env w)) as [[x|] e2]; cbn; auto.
  - destruct (lock (buf w)) eqn:L.
    + unfold monitor_wake. rewrite with_lock_held by exact L. auto.
    + rewrite monitor_wake_eq by exact L.
      destruct (_perf_counter_dt (env w)) as [t e1]. cbv zeta.
      destruct (_ && _); [|cbn; auto].
      destruct (flush_callback (buf w) _ e1) as [[x|] e2]; cbn; auto.
  - cbn; auto.
  - cbn; auto.
Qed.

Lemma written_app (w w' : World) (d : list action) :
  trace w' = trace w ++ d -> written w w' = d.
Proof.
  intros H. unfold written. rewrite H, skipn_app, skipn_all.
  rewrite Nat.sub_diag. reflexivity.
Qed.

Lemma written_same (w w' : World) :
  trace w' = trace w -> written w w' = [].
Proof.
  intros H. apply written_app. rewrite app_nil_r. exact H.
Qed.

Lemma written_run_call (c : call) (w : World) :
  call_shape w (fst (run_call c w)) (snd (run_call c w))
             (written w (snd (run_call c w))).
Proof.
  destruct (run_call_shape c w) as [d [T S]].
  rewrite (written_app _ _ _ T). exact S.
Qed.

(** ** Failure of the callback *)

Lemma shape_failure (w w' : World) (r : res unit) (d : list action)
    (b : list entry) (x : Exn) :
  call_shape w r w' d ->
  In (Callback b (Some x)) d ->
  r = Raise x /\
  events (buf w') = b /\
  b = events (buf w) ++ appended d /\
  batches d = [b].
Proof.
  intros S HIn.
  destruct S; split_in HIn; injection HIn as <- <-; cbn;
    rewrite ?app_nil_r; repeat split; congruence.
Qed.

(** C2. Whenever a call -- a direct [flush_jobs], an [add_job] that hits
    the threshold, or a monitor wake-up -- invokes the callback on a batch
    [b] and the callback raises [x]: the call raises [x] to its caller,
    [events] afterwards is still [b] (what it was at the invocation: the
    events pending before the call followed by what the call appended),
    and the callback was invoked exactly once by the call (no retry).
    The exception of a monitor wake-up leaves the [monitor] loop too. *)
Theorem failed_flush_keeps_events_and_raises
    (c : call) (w : World) (b : list entry) (x : Exn) :
  In (Callback b (Some x)) (written w (snd (run_call c w))) ->
  fst (run_call c w) = Raise x /\
  events (buf (snd (run_call c w))) = b /\
  b = events (buf w) ++ appended (written w (snd (run_call c w))) /\
  batches (written w (snd (run_call c w))) = [b] /\
  (c = MonitorWake ->
   forall during sched w0,
     alive (buf w0) = true -> run_calls during w0 = w ->
     monitor (during :: sched) w0 = (Raise x, snd (monitor_wake w))).
Proof.
  intros HIn.
  destruct (shape_failure _ _ _ _ _ _ (written_run_call c w) HIn)
    as [R [E [B N]]].
  repeat split; try assumption.
  intros -> during sched w0 A <-. cbn [run_call] in R.
  cbn [monitor]. rewrite A. unfold bind.
  destruct (monitor_wake (run_calls during w0)) as [r w']; cbn in R |- *.
  rewrite R. reflexivity.
Qed.

(** ** The timeout trigger *)


(** ** [last_event_time] *)

(** C9. [__init__] sets [last_event_time] to the clock reading it takes;
    every [add_job] that gets the lock sets it to the clock reading it takes
    after the append, whether or not it goes on to flush and whatever the
    flush does; [flush_jobs] and a monitor wake-up leave it as it was, in
    every state [v], with the lock held or not. *)
Theorem last_event_time_frame
    (m t : Z) (cb : list entry -> Env -> option Exn * Env) (e : Env)
    (job : Job) (status : STATUS_LOG) (w v : World) :
  lock (buf w) = false ->
  last_event_time (buf (__init__ m t cb e)) = fst (_perf_counter_dt e) /\
  last_event_time (buf (snd (add_job job status w))) =
    fst (_perf_counter_dt (env w)) /\
  In (Stamp (fst (_perf_counter_dt (env w))))
     (written w (snd (add_job job status w))) /\
  last_event_time (buf (snd (flush_jobs v))) = last_event_time (buf v) /\
  last_event_time (buf (snd (monitor_wake v))) = last_event_time (buf v).
Proof.
  intros L. split; [|split; [|split; [|split]]].
  - unfold __init__. destruct (_perf_counter_dt e). reflexivity.
  - rewrite (add_job_eq job status w L).
    destruct (_perf_counter_dt (env w)) as [t1 e1]. cbv zeta.
    destruct (max_size (buf w) <=? _); [|reflexivity].
    destruct (flush_callback (buf w) _ e1) as [[x|] e2]; reflexivity.
  - rewrite (add_job_eq job status w L).
    destruct (_perf_counter_dt (env w)) as [t1 e1]. cbv zeta.
    destruct (max_size (buf w) <=? _);
      [destruct (flush_callback (buf w) _ e1) as [[x|] e2]|];
      (erewrite written_app; [|cbn; rewrite <- app_assoc; reflexivity]);
      cbn; auto.
  - destruct (events (buf v)) as [|e0 l] eqn:E.
    + rewrite flush_jobs_nil by exact E. reflexivity.
    + rewrite flush_jobs_cons by (rewrite E; discriminate).
      destruct (flush_callback (buf v) _ (env v)) as [[x|] e2]; reflexivity.
  - destruct (lock (buf v)) eqn:Lv.
    + unfold monitor_wake. rewrite with_lock_held by exact Lv. reflexivity.
    + rewrite (monitor_wake_eq v Lv).
      destruct (_perf_counter_dt (env v)) as [t1 e1]. cbv zeta.
      destruct (_ && _); [|reflexivity].
      destruct (flush_callback (buf v) _ e1) as [[x|] e2]; reflexivity.
Qed.

(** ** The lock *)

(** The lock discipline as the ghost trace shows it.  [add_job] and a
    monitor wake-up take the lock
    first: every write to [events] and [last_event_time] and the callback
    invocation happen between their own [Acquire] and [Release].
    [flush_jobs] itself never takes the lock and leaves it as it found it:
    what it does is under the lock when its caller holds it, and a direct
    call with something pending invokes the callback and clears [events]
    outside any acquisition of its own. *)
Theorem lock_taken_by_add_job_and_monitor_wake (c : call) (w : World) :
  let w' := snd (run_call c w) in
  (c <> FlushJobs -> lock_disciplined false (written w w') = true) /\
  (c = FlushJobs ->
   ~ In Acquire (written w w') /\
   lock (buf w') = lock (buf w) /\
   lock_disciplined true (written w w') = true /\
   (events (buf w) <> [] -> lock_disciplined false (written w w') = false)).
Proof.
  cbv zeta. split.
  - intros NF. destruct c as [job status| | | |]; [| congruence | | |];
      cbn [run_call].
    + destruct (lock (buf w)) eqn:L.
      * unfold add_job. rewrite with_lock_held by exact L.
        rewrite written_same by reflexivity. reflexivity.
      * rewrite (add_job_eq job status w L).
        destruct (_perf_counter_dt (env w)) as [t e1]. cbv zeta.
        destruct (max_size (buf w) <=? _);
          [destruct (flush_callback (buf w) _ e1) as [[x|] e2]|];
          (erewrite written_app; [|cbn; rewrite <- app_assoc; reflexivity]);
          reflexivity.
    + destruct (lock (buf w)) eqn:L.
      * unfold monitor_wake. rewrite with_lock_held by exact L.
        rewrite written_same by reflexivity. reflexivity.
      * rewrite (monitor_wake_eq w L).
        destruct (_perf_counter_dt (env w)) as [t e1]. cbv zeta.
        destruct (_ && _);
          [destruct (flush_callback (buf w) _ e1) as [[x|] e2]|];
          (erewrite written_app; [|cbn; rewrite <- app_assoc; reflexivity]);
          reflexivity.
    + rewrite written_same by reflexivity. reflexivity.
    + rewrite written_same by reflexivity. reflexivity.
  - intros ->. cbn [run_call].
    destruct (events (buf w)) as [|e l] eqn:E.
    + rewrite flush_jobs_nil by exact E.
      rewrite written_same by reflexivity.
      cbn. intuition congruence.
    + rewrite flush_jobs_cons by (rewrite E; discriminate).
      destruct (flush_callback (buf w) _ (env w)) as [[x|] e2];
        (erewrite written_app; [|cbn; reflexivity]); cbn;
        intuition discriminate.
Qed.

(** ** Capacities below two *)


(** ** A callback that keeps failing *)

Lemma run_call_lock_free (c : call) (w : World) :
  lock (buf w) = false -> lock (buf (snd (run_call c w))) = false.
Proof.
  intros L. pose proof (written_run_call c w) as S.
  destruct S; congruence.
Qed.

Lemma run_calls_lock_free (cs : list call) (w : World) :
  lock (buf w) = false -> lock (buf (run_calls cs w)) = false.
Proof.
  revert w. induction cs as [|c cs IH]; intros w L; [exact L|].
  cbn [run_calls]. apply IH, run_call_lock_free, L.
Qed.

Lemma run_call_while_failing (c : call) (w : World) :
  lock (buf w) = false ->
  always_fails (buf w) ->
  events (buf (snd (run_call c w))) = events (buf w) ++ entries_of [c].
Proof.
  intros L F. destruct c as [job status| | | |]; cbn [run_call entries_of].
  - rewrite (add_job_eq job status w L).
    destruct (_perf_counter_dt (env w)) as [t e1]. cbv zeta.
    destruct (max_size (buf w) <=? _); [|reflexivity].
    pose proof (F (events (buf w) ++ [(job, status)]) e1) as F1.
    destruct (flush_callback (buf w) _ e1) as [[x|] e2];
      [reflexivity|cbn in F1; congruence].
  - rewrite app_nil_r. destruct (events (buf w)) as [|e l] eqn:E.
    + rewrite flush_jobs_nil by exact E. cbn. congruence.
    + rewrite flush_jobs_cons by (rewrite E; discriminate).
      pose proof (F (events (buf w)) (env w)) as F1.
      destruct (flush_callback (buf w) _ (env w)) as [[x|] e2];
        [cbn; congruence|cbn in F1; congruence].
  - rewrite app_nil_r. rewrite (monitor_wake_eq w L).
    destruct (_perf_counter_dt (env w)) as [t e1]. cbv zeta.
    destruct (_ && _); [|reflexivity].
    pose proof (F (events (buf w)) e1) as F1.
    destruct (flush_callback (buf w) _ e1) as [[x|] e2];
      [reflexivity|cbn in F1; congruence].
  - rewrite app_nil_r. reflexivity.
  - rewrite app_nil_r. reflexivity.
Qed.

Lemma entries_of_add_calls (l : list entry) :
  entries_of (map add_call l) = l.
Proof.
  induction l as [|[job status] l IH]; [reflexivity|].
  cbn. rewrite IH. reflexivity.
Qed.

Lemma run_calls_while_failing (cs : list call) (w : World) :
  lock (buf w) = false ->
  always_fails (buf w) ->
  events (buf (run_calls cs w)) = events (buf w) ++ entries_of cs.
Proof.
  revert w. induction cs as [|c cs IH]; intros w L F.
  - cbn. rewrite app_nil_r. reflexivity.
  - cbn [run_calls]. rewrite IH.
    + rewrite (run_call_while_failing c w L F), <- app_assoc.
      f_equal. destruct c; reflexivity.
    + apply run_call_lock_free, L.
    + intros batch e.
      destruct (run_call_config c w) as [_ [_ ->]]. apply F.
Qed.

(** C8. While the callback raises on every invocation, no call removes
    anything from [events]: after any sequence of calls -- [add_job]s,
    direct flushes and monitor wake-ups in any order -- [events] is what it
    was followed by every entry handed to [add_job], in call order.  In
    particular after [n] [add_job] calls it holds all [n] entries, and its
    length passes [max_size] as soon as [n] does. *)
Theorem events_grow_while_callback_fails
    (cs : list call) (l : list entry) (w : World) :
  lock (buf w) = false ->
  always_fails (buf w) ->
  events (buf (run_calls cs w)) = events (buf w) ++ entries_of cs /\
  events (buf (run_calls (map add_call l) w)) = events (buf w) ++ l /\
  length (events (buf (run_calls (map add_call l) w))) =
    (length (events (buf w)) + length l)%nat /\
  (max_size (buf w) < Z.of_nat (length l) ->
   max_size (buf (run_calls (map add_call l) w)) <
   Z.of_nat (length (events (buf (run_calls (map add_call l) w))))).
Proof.
  intros L F.
  assert (A : events (buf (run_calls (map add_call l) w)) =
              events (buf w) ++ l).
  { rewrite (run_calls_while_failing _ w L F), entries_of_add_calls.
    reflexivity. }
  split; [exact (run_calls_while_failing cs w L F)|].
  split; [exact A|]. split.
  - rewrite A, length_app. reflexivity.
  - intros G. rewrite A, length_app.
    assert (C : max_size (buf (run_calls (map add_call l) w)) =
                max_size (buf w)).
    { clear. revert w. induction (map add_call l) as [|c cs IH]; intros w;
        [reflexivity|].
      cbn [run_calls]. rewrite IH.
      destruct (run_call_config c w) as [-> _]. reflexivity. }
    rewrite C. lia.
Qed.

(** ** Redelivery after a failure *)

Lemma pending_after_app (p : list entry) (d1 d2 : list action) :
  pending_after p (d1 ++ d2) = pending_after (pending_after p d1) d2.
Proof.
  revert p. induction d1 as [|a d1 IH]; intros p; [reflexivity|].
  cbn. apply IH.
Qed.

Lemma clear_due_after_app (f : bool) (d1 d2 : list action) :
  clear_due_after f (d1 ++ d2) = clear_due_after (clear_due_after f d1) d2.
Proof.
  revert f. induction d1 as [|a d1 IH]; intros f; [reflexivity|].
  cbn. apply IH.
Qed.

Lemma consistent_app (p : list entry) (f : bool) (d1 d2 : list action) :
  consistent p f (d1 ++ d2) <->
  consistent p f d1 /\
  consistent (pending_after p d1) (clear_due_after f d1) d2.
Proof.
  revert p f. induction d1 as [|a d1 IH]; intros p f; cbn.
  - tauto.
  - rewrite IH. tauto.
Qed.

Lemma shape_consistent (w w' : World) (r : res unit) (d : list action) :
  call_shape w r w' d ->
  consistent (events (buf w)) false d /\
  pending_after (events (buf w)) d = events (buf w') /\
  clear_due_after false d = false.
Proof.
  intros S. destruct S; cbn; intuition congruence.
Qed.

Lemma run_calls_consistent (cs : list call) (w : World) :
  exists d,
    trace (run_calls cs w) = trace w ++ d /\
    consistent (events (buf w)) false d /\
    pending_after (events (buf w)) d = events (buf (run_calls cs w)) /\
    clear_due_after false d = false.
Proof.
  revert w. induction cs as [|c cs IH]; intros w.
  - exists []. cbn. rewrite app_nil_r. auto.
  - cbn [run_calls].
    destruct (run_call_shape c w) as [d1 [T1 S1]].
    destruct (shape_consistent _ _ _ _ S1) as [C1 [P1 F1]].
    destruct (IH (snd (run_call c w))) as [d2 [T2 [C2 [P2 F2]]]].
    exists (d1 ++ d2). repeat split.
    + rewrite T2, T1, app_assoc. reflexivity.
    + apply consistent_app. rewrite P1, F1. auto.
    + rewrite pending_after_app, P1. exact P2.
    + rewrite clear_due_after_app, F1. exact F2.
Qed.

Lemma first_success_after (mid post : list action) (b p : list entry) :
  consistent p false (mid ++ Callback b None :: post) ->
  no_success mid = true ->
  b = p ++ appended mid.
Proof.
  revert p. induction mid as [|a mid IH]; intros p C N.
  - cbn in C. destruct C as [-> _]. rewrite app_nil_r. reflexivity.
  - destruct a as [| |e|t|b' [x|]|]; cbn in C, N |- *;
      destruct C as [Ha C]; try discriminate; try (apply IH; assumption).
    rewrite (IH _ C N), <- app_assoc. reflexivity.
Qed.

(** C3, as the code has it.  In the trace of any sequence of calls that
    run one after the other ([run_calls]: no call overlaps a direct
    [flush_jobs]): if the
    callback was invoked on [E] and raised, then the next invocation that
    returns normally -- with any number of further failed attempts and of
    [add_job]s in between -- is handed [E] followed by the entries appended
    in between, in the order they were appended. *)
Theorem next_successful_flush_resends_failed_batch
    (cs : list call) (w : World) (pre mid post : list action)
    (E b : list entry) (x : Exn) :
  written w (run_calls cs w) =
    pre ++ Callback E (Some x) :: mid ++ Callback b None :: post ->
  no_success mid = true ->
  b = E ++ appended mid.
Proof.
  intros T N.
  destruct (run_calls_consistent cs w) as [d [Td [C _]]].
  rewrite (written_app _ _ _ Td) in T. subst d.
  apply consistent_app in C. destruct C as [_ C].
  cbn in C. destruct C as [-> C].
  exact (first_success_after mid post b _ C N).
Qed.

(** ** The size trigger *)

Lemma add_jobs_snoc (l : list entry) (job : Job) (status : STATUS_LOG)
    (w : World) :
  add_jobs (l ++ [(job, status)]) w =
  (add_jobs l ;; add_job job status) w.
Proof.
  revert w. induction l as [|[j s] l IH]; intros w; cbn [add_jobs app].
  - unfold bind, ret.
    destruct (add_job job status w) as [[[]|x|] w']; reflexivity.
  - unfold bind.
    destruct (add_job j s w) as [[[]|x|] w']; [|reflexivity..].
    rewrite IH. reflexivity.
Qed.

(** What holds between the calls of a producer whose calls all returned:
    the batches flushed so far, one after the other, followed by what is
    pending, are the entries added so far; every batch has [max_size]
    entries; fewer than [max_size] entries are pending. *)
Lemma add_jobs_invariant
    (m t : Z) (cb : list entry -> Env -> option Exn * Env) (e0 : Env)
    (l : list entry) (w : World) :
  1 <= m ->
  add_jobs l (__init__ m t cb e0) = (Ok tt, w) ->
  max_size (buf w) = m /\
  lock (buf w) = false /\
  concat (batches (trace w)) ++ events (buf w) = l /\
  Forall (fun b => Z.of_nat (length b) = m) (batches (trace w)) /\
  Z.of_nat (length (events (buf w))) < m.
Proof.
  intros Hm. revert w. induction l as [|[job status] l IH] using rev_ind;
    intros w R.
  - cbn in R. unfold ret, __init__ in R.
    destruct (_perf_counter_dt e0) as [t0 e1]. injection R as <-.
    cbn. repeat split; [constructor|lia].
  - rewrite add_jobs_snoc in R. unfold bind in R.
    destruct (add_jobs l (__init__ m t cb e0)) as [[[]|x|] w1] eqn:R1;
      try discriminate R.
    destruct (IH w1 eq_refl) as [M [L [C [F B]]]].
    rewrite (add_job_eq job status w1 L) in R.
    destruct (_perf_counter_dt (env w1)) as [t1 e1]. cbv zeta in R.
    destruct (max_size (buf w1) <=? _) eqn:G.
    + destruct (flush_callback (buf w1) _ e1) as [[x|] e2];
        [discriminate R|]. injection R as <-.
      apply Z.leb_le in G. rewrite length_app in G. cbn in G.
      cbn. rewrite !batches_app, concat_app. cbn.
      rewrite !app_nil_r, app_assoc, C.
      split; [exact M|]. do 2 (split; [reflexivity|]). split; [|lia].
      apply Forall_app. split; [exact F|].
      constructor; [|constructor]. rewrite length_app. cbn. lia.
    + injection R as <-. apply Z.leb_gt in G.
      cbn. rewrite !batches_app. cbn. rewrite !app_nil_r, app_assoc, C.
      split; [exact M|]. do 2 (split; [reflexivity|]).
      split; [exact F|]. rewrite <- M. exact G.
Qed.


(** ** Stopping the monitor *)

Lemma monitor_not_alive (sched : list (list call)) (w : World) :
  alive (buf w) = false -> monitor sched w = (Ok Stopped, w).
Proof.
  intros A. destruct sched; cbn [monitor]; rewrite A; reflexivity.
Qed.

(** A wake-up that gets the lock returns or raises, keeps [alive] as it is
    and invokes the callback at most once. *)
Lemma monitor_wake_once (w : World) :
  lock (buf w) = false ->
  fst (monitor_wake w) <> Blocked /\
  alive (buf (snd (monitor_wake w))) = alive (buf w) /\
  (length (batches (written w (snd (monitor_wake w)))) <= 1)%nat.
Proof.
  intros L. rewrite (monitor_wake_eq w L).
  destruct (_perf_counter_dt (env w)) as [t e1]. cbv zeta.
  destruct (_ && _);
    [destruct (flush_callback (buf w) _ e1) as [[x|] e2]|];
    (erewrite written_app; [|cbn; rewrite <- app_assoc; reflexivity]);
    cbn; repeat split; solve [discriminate | lia].
Qed.


(** * Further properties of the buffer *)

(** ** Sequences of calls and the monitor as one *)

Lemma run_calls_app (cs1 cs2 : list call) (w : World) :
  run_calls (cs1 ++ cs2) w = run_calls cs2 (run_calls cs1 w).
Proof.
  revert w. induction cs1 as [|c cs1 IH]; intros w; [reflexivity|].
  cbn. apply IH.
Qed.

Lemma entries_of_app (cs1 cs2 : list call) :
  entries_of (cs1 ++ cs2) = entries_of cs1 ++ entries_of cs2.
Proof.
  induction cs1 as [|c cs1 IH]; [reflexivity|].
  destruct c; cbn; rewrite IH; reflexivity.
Qed.

Lemma delivered_app (t1 t2 : list action) :
  delivered (t1 ++ t2) = delivered t1 ++ delivered t2.
Proof.
  induction t1 as [|a t1 IH]; [reflexivity|].
  destruct a as [| | | |b [x|]|]; cbn; rewrite ?IH; reflexivity.
Qed.

(** Whatever the monitor has done when the schedule ends is what some
    sequence of calls does: the scheduled calls of the iterations it went
    through, with one wake-up after each. *)
Lemma monitor_as_calls (sched : list (list call)) (w : World) :
  exists cs k,
    snd (monitor sched w) = run_calls cs w /\
    entries_of cs = entries_of (concat (firstn k sched)).
Proof.
  revert w. induction sched as [|during sched IH]; intros w.
  - exists [], 0%nat. cbn. destruct (alive (buf w)); auto.
  - cbn [monitor]. destruct (alive (buf w)).
    + unfold bind.
      destruct (monitor_wake (run_calls during w)) as [[[]|x|] w2] eqn:W.
      * destruct (IH w2) as [cs [k [R E]]].
        exists (during ++ MonitorWake :: cs), (S k). split.
        -- rewrite run_calls_app. cbn [run_calls run_call].
           rewrite W. exact R.
        -- cbn [firstn concat]. rewrite !entries_of_app. cbn. rewrite E.
           reflexivity.
      * exists (during ++ [MonitorWake]), 1%nat. split.
        -- rewrite run_calls_app. cbn [run_calls run_call].
           rewrite W. reflexivity.
        -- cbn. rewrite !entries_of_app. cbn. rewrite !app_nil_r.
           reflexivity.
      * exists (during ++ [MonitorWake]), 1%nat. split.
        -- rewrite run_calls_app. cbn [run_calls run_call].
           rewrite W. reflexivity.
        -- cbn. rewrite !entries_of_app. cbn. rewrite !app_nil_r.
           reflexivity.
    + exists [], 0%nat. auto.
Qed.

(** ** Nothing lost, nothing delivered twice *)

Lemma shape_ledger (w w' : World) (r : res unit) (d : list action) :
  call_shape w r w' d ->
  concat (delivered d) ++ events (buf w') = events (buf w) ++ appended d /\
  Forall (fun b => b <> []) (batches d).
Proof.
  intros S. destruct S; cbn; rewrite ?app_nil_r; split;
    try congruence; repeat constructor; auto using snoc_not_nil.
  all: match goal with
       | E : events (buf ?v) = [] |- context [events (buf ?v)] =>
           rewrite E, app_nil_r; reflexivity
       end.
Qed.

Lemma run_call_appended (c : call) (w : World) :
  lock (buf w) = false ->
  appended (written w (snd (run_call c w))) = entries_of [c].
Proof.
  intros L. destruct c as [job status| | | |]; cbn [run_call entries_of].
  - rewrite (add_job_eq job status w L).
    destruct (_perf_counter_dt (env w)) as [t e1]. cbv zeta.
    destruct (max_size (buf w) <=? _);
      [destruct (flush_callback (buf w) _ e1) as [[x|] e2]|];
      (erewrite written_app; [|cbn; rewrite <- app_assoc; reflexivity]);
      reflexivity.
  - destruct (events (buf w)) as [|e l] eqn:E.
    + rewrite flush_jobs_nil by exact E.
      rewrite written_same by reflexivity. reflexivity.
    + rewrite flush_jobs_cons by (rewrite E; discriminate).
      destruct (flush_callback (buf w) _ (env w)) as [[x|] e2];
        (erewrite written_app; [|cbn; reflexivity]); reflexivity.
  - rewrite (monitor_wake_eq w L).
    destruct (_perf_counter_dt (env w)) as [t e1]. cbv zeta.
    destruct (_ && _);
      [destruct (flush_callback (buf w) _ e1) as [[x|] e2]|];
      (erewrite written_app; [|cbn; rewrite <- app_assoc; reflexivity]);
      reflexivity.
  - rewrite written_same by reflexivity. reflexivity.
  - rewrite written_same by reflexivity. reflexivity.
Qed.

Lemma run_calls_ledger (cs : list call) (w : World) :
  exists d,
    trace (run_calls cs w) = trace w ++ d /\
    concat (delivered d) ++ events (buf (run_calls cs w)) =
      events (buf w) ++ appended d /\
    Forall (fun b => b <> []) (batches d) /\
    (lock (buf w) = false -> appended d = entries_of cs).
Proof.
  revert w. induction cs as [|c cs IH]; intros w.
  - exists []. cbn. rewrite !app_nil_r. auto.
  - cbn [run_calls].
    destruct (run_call_shape c w) as [d1 [T1 S1]].
    destruct (shape_ledger _ _ _ _ S1) as [C1 N1].
    destruct (IH (snd (run_call c w))) as [d2 [T2 [C2 [N2 A2]]]].
    exists (d1 ++ d2). split; [|split; [|split]].
    + rewrite T2, T1, app_assoc. reflexivity.
    + rewrite delivered_app, concat_app, appended_app, <- app_assoc, C2.
      rewrite !app_assoc, C1. reflexivity.
    + rewrite batches_app. apply Forall_app. auto.
    + intros L. rewrite appended_app, A2 by (apply run_call_lock_free, L).
      rewrite <- (written_app _ _ _ T1), (run_call_appended c w L).
      destruct c; reflexivity.
Qed.

(** X1.  Over any sequence of calls that run one after the other (no call
    overlaps a direct [flush_jobs]), and over any run of the monitor with
    such calls scheduled during its sleeps, the
    batches on which the callback returned, one after the other, followed by
    what is pending at the end, are exactly what was pending at the start
    followed by the entries appended since, in the order they were appended:
    no entry is dropped, none is in two delivered batches, none changes
    place.  When the lock is free at the start the appended entries are the
    arguments of the [add_job] calls, in call order. *)
Theorem nothing_lost_nothing_twice
    (cs : list call) (sched : list (list call)) (w : World) :
  concat (delivered (written w (run_calls cs w))) ++
    events (buf (run_calls cs w)) =
    events (buf w) ++ appended (written w (run_calls cs w)) /\
  concat (delivered (written w (snd (monitor sched w)))) ++
    events (buf (snd (monitor sched w))) =
    events (buf w) ++ appended (written w (snd (monitor sched w))) /\
  (lock (buf w) = false ->
   appended (written w (run_calls cs w)) = entries_of cs).
Proof.
  assert (G : forall cs0,
             concat (delivered (written w (run_calls cs0 w))) ++
               events (buf (run_calls cs0 w)) =
             events (buf w) ++ appended (written w (run_calls cs0 w))).
  { intros cs0. destruct (run_calls_ledger cs0 w) as [d [T [C _]]].
    rewrite (written_app _ _ _ T). exact C. }
  split; [apply G|]. split.
  - destruct (monitor_as_calls sched w) as [cs0 [k [-> _]]]. apply G.
  - intros L. destruct (run_calls_ledger cs w) as [d [T [_ [_ A]]]].
    rewrite (written_app _ _ _ T). exact (A L).
Qed.

(** X2.  The callback is never handed an empty batch, by no call and not by
    the monitor. *)
Theorem callback_never_gets_empty_batch
    (cs : list call) (sched : list (list call)) (w : World) :
  Forall (fun b => b <> []) (batches (written w (run_calls cs w))) /\
  Forall (fun b => b <> [])
         (batches (written w (snd (monitor sched w)))).
Proof.
  assert (G : forall cs0,
             Forall (fun b => b <> [])
                    (batches (written w (run_calls cs0 w)))).
  { intros cs0. destruct (run_calls_ledger cs0 w) as [d [T [_ [N _]]]].
    rewrite (written_app _ _ _ T). exact N. }
  split; [apply G|].
  destruct (monitor_as_calls sched w) as [cs0 [k [-> _]]]. apply G.
Qed.

(** ** The lock is given back *)

Lemma run_call_not_blocked (c : call) (w : World) :
  lock (buf w) = false -> fst (run_call c w) <> Blocked.
Proof.
  intros L. destruct c as [job status| | | |]; cbn [run_call].
  - rewrite (add_job_eq job status w L).
    destruct (_perf_counter_dt (env w)) as [t e1]. cbv zeta.
    destruct (max_size (buf w) <=? _);
      [destruct (flush_callback (buf w) _ e1) as [[x|] e2]|];
      discriminate.
  - destruct (events (buf w)) as [|e l] eqn:E.
    + rewrite flush_jobs_nil by exact E. discriminate.
    + rewrite flush_jobs_cons by (rewrite E; discriminate).
      destruct (flush_callback (buf w) _ (env w)) as [[x|] e2];
        discriminate.
  - apply monitor_wake_once, L.
  - discriminate.
  - discriminate.
Qed.

Lemma monitor_lock_free (sched : list (list call)) (w : World) :
  lock (buf w) = false ->
  fst (monitor sched w) <> Blocked /\
  lock (buf (snd (monitor sched w))) = false.
Proof.
  revert w. induction sched as [|during sched IH]; intros w L.
  - cbn. destruct (alive (buf w)); split; solve [discriminate | exact L].
  - cbn [monitor]. destruct (alive (buf w));
      [|split; solve [discriminate | exact L]].
    pose proof (run_calls_lock_free during w L) as L1.
    pose proof (run_call_not_blocked MonitorWake _ L1) as NB.
    pose proof (run_call_lock_free MonitorWake _ L1) as L2.
    cbn [run_call] in NB, L2. unfold bind.
    destruct (monitor_wake (run_calls during w)) as [[[]|x|] w2];
      cbn [fst snd] in *.
    + apply IH, L2.
    + split; [discriminate|exact L2].
    + congruence.
Qed.

(** X3.  With the lock free at the start, no call is left suspended on it
    and every call gives it back, also the [add_job] and the wake-up whose
    flush raises: the lock is free after any call, after any sequence of
    calls, and whenever the monitor has returned, raised or gone back to
    sleep. *)
Theorem lock_released_on_every_exit
    (c : call) (cs : list call) (sched : list (list call)) (w : World) :
  lock (buf w) = false ->
  fst (run_call c w) <> Blocked /\
  lock (buf (snd (run_call c w))) = false /\
  lock (buf (run_calls cs w)) = false /\
  fst (monitor sched w) <> Blocked /\
  lock (buf (snd (monitor sched w))) = false.
Proof.
  intros L. split; [exact (run_call_not_blocked c w L)|].
  split; [exact (run_call_lock_free c w L)|].
  split; [exact (run_calls_lock_free cs w L)|].
  exact (monitor_lock_free sched w L).
Qed.

(** ** What [__init__] bound stays bound *)

Lemma run_calls_config (cs : list call) (w : World) :
  max_size (buf (run_calls cs w)) = max_size (buf w) /\
  timeout (buf (run_calls cs w)) = timeout (buf w) /\
  flush_callback (buf (run_calls cs w)) = flush_callback (buf w).
Proof.
  revert w. induction cs as [|c cs IH]; intros w; [auto|].
  cbn [run_calls]. destruct (IH (snd (run_call c w))) as [-> [-> ->]].
  apply run_call_config.
Qed.

(** X4.  No call, no sequence of calls and no run of the monitor changes
    [max_size], [timeout] or [flush_callback]: the buffer keeps the
    thresholds and the callback it was built with. *)
Theorem thresholds_and_callback_never_change
    (cs : list call) (sched : list (list call)) (w : World) :
  (max_size (buf (run_calls cs w)) = max_size (buf w) /\
   timeout (buf (run_calls cs w)) = timeout (buf w) /\
   flush_callback (buf (run_calls cs w)) = flush_callback (buf w)) /\
  (max_size (buf (snd (monitor sched w))) = max_size (buf w) /\
   timeout (buf (snd (monitor sched w))) = timeout (buf w) /\
   flush_callback (buf (snd (monitor sched w))) = flush_callback (buf w)).
Proof.
  split; [apply run_calls_config|].
  destruct (monitor_as_calls sched w) as [cs0 [k [-> _]]].
  apply run_calls_config.
Qed.

(** ** How a call can end *)

(** X5.  A call raises only what the callback raised in that very call, on
    a batch that is still all of [events] afterwards.  A call invokes the
    callback at most once, and a call that returns after invoking it leaves
    [events] empty. *)
Theorem call_outcome (c : call) (w : World) :
  let w' := snd (run_call c w) in
  (forall x, fst (run_call c w) = Raise x ->
             In (Callback (events (buf w')) (Some x)) (written w w')) /\
  (length (batches (written w w')) <= 1)%nat /\
  (fst (run_call c w) = Ok tt -> batches (written w w') <> [] ->
   events (buf w') = []).
Proof.
  cbv zeta. pose proof (written_run_call c w) as S.
  destruct S; cbn; repeat split; intros; try discriminate;
    try congruence; try lia.
  all: match goal with
       | R : Raise _ = Raise _ |- _ => injection R as <-
       end.
  all: match goal with
       | E : events (buf _) = _ |- _ => rewrite E
       end; auto 6.
Qed.

(** X6.  After an [add_job] that got the lock and returned, whatever was
    pending before -- also more than [max_size] entries left behind by
    failed flushes -- [events] is empty or holds fewer than [max_size]
    entries. *)
Theorem add_job_returns_below_capacity
    (job : Job) (status : STATUS_LOG) (w : World) :
  lock (buf w) = false ->
  fst (add_job job status w) = Ok tt ->
  let w' := snd (add_job job status w) in
  events (buf w') = [] \/
  Z.of_nat (length (events (buf w'))) < max_size (buf w').
Proof.
  intros L. cbv zeta. rewrite (add_job_eq job status w L).
  destruct (_perf_counter_dt (env w)) as [t e1]. cbv zeta.
  destruct (max_size (buf w) <=? _) eqn:G.
  - destruct (flush_callback (buf w) _ e1) as [[x|] e2]; [discriminate|].
    intros _. left. reflexivity.
  - intros _. right. apply Z.leb_gt in G. exact G.
Qed.

(** X7.  When [add_job] raises, its entry is in the buffer all the same.
    Calling [add_job] again with the same entry appends it a second time
    and attempts a flush again: the callback is handed what was pending
    before the first call followed by the entry twice. *)
Theorem retried_add_job_appends_twice
    (job : Job) (status : STATUS_LOG) (w : World) (x : Exn) :
  lock (buf w) = false ->
  fst (add_job job status w) = Raise x ->
  let w1 := snd (add_job job status w) in
  events (buf w1) = events (buf w) ++ [(job, status)] /\
  batches (written w1 (snd (add_job job status w1))) =
    [events (buf w) ++ [(job, status); (job, status)]].
Proof.
  intros L. cbv zeta.
  pose proof (run_call_lock_free (AddJob job status) w L) as L1.
  pose proof (run_call_config (AddJob job status) w) as [M1 [_ F1]].
  cbn [run_call] in L1, M1, F1. revert L1 M1 F1.
  rewrite (add_job_eq job status w L).
  destruct (_perf_counter_dt (env w)) as [t e1]. cbv zeta.
  destruct (max_size (buf w) <=? _) eqn:G; [|discriminate].
  destruct (flush_callback (buf w) _ e1) as [[y|] e2]; [|discriminate].
  cbn [fst snd]. intros L1 M1 F1 _. split; [reflexivity|].
  rewrite (add_job_eq job status _ L1).
  cbn [buf env trace events max_size flush_callback set_lock
       set_last_event_time set_events].
  destruct (_perf_counter_dt e2) as [t2 e3]. cbv zeta.
  apply Z.leb_le in G. rewrite length_app in G. cbn [length] in G.
  assert (G2 : (max_size (buf w) <=?
                Z.of_nat (length ((events (buf w) ++ [(job, status)]) ++
                                  [(job, status)]))) = true).
  { apply Z.leb_le. rewrite !length_app. cbn [length]. lia. }
  rewrite G2.
  destruct (flush_callback (buf w) _ e3) as [[z|] e4];
    (erewrite written_app; [|cbn; rewrite <- app_assoc; reflexivity]);
    cbn; rewrite <- app_assoc; reflexivity.
Qed.

(** X8.  A [flush_jobs] that returns leaves nothing to flush: calling it
    again at once changes nothing and does not invoke the callback. *)
Theorem flush_jobs_twice (w : World) :
  fst (flush_jobs w) = Ok tt ->
  flush_jobs (snd (flush_jobs w)) = (Ok tt, snd (flush_jobs w)).
Proof.
  destruct (events (buf w)) as [|e l] eqn:E.
  - rewrite (flush_jobs_nil w E). intros _. cbn [snd].
    apply flush_jobs_nil, E.
  - rewrite flush_jobs_cons by (rewrite E; discriminate).
    destruct (flush_callback (buf w) _ (env w)) as [[x|] e2];
      [discriminate|].
    intros _. apply flush_jobs_nil. reflexivity.
Qed.

(** ** The monitor loop *)

(** X9.  The monitor leaves its loop by returning only when [alive] is
    clear, and it is still in the loop at the end of a schedule only when
    [alive] is set: apart from an exception of the callback, nothing but
    [alive] ends it. *)
Theorem monitor_state_follows_alive (sched : list (list call)) (w : World) :
  (fst (monitor sched w) = Ok Stopped ->
   alive (buf (snd (monitor sched w))) = false) /\
  (fst (monitor sched w) = Ok Running ->
   alive (buf (snd (monitor sched w))) = true).
Proof.
  revert w. induction sched as [|during sched IH]; intros w.
  - cbn. destruct (alive (buf w)) eqn:A; cbn; split; intros H;
      solve [discriminate H | exact A].
  - cbn [monitor]. destruct (alive (buf w)) eqn:A.
    + unfold bind.
      destruct (monitor_wake (run_calls during w)) as [[[]|x|] w2];
        [apply IH|split; discriminate..].
    + cbn. split; intros H; solve [discriminate H | exact A].
Qed.

Lemma run_call_keeps_alive (c : call) (w : World) :
  c <> AliveClear ->
  alive (buf w) = true ->
  alive (buf (snd (run_call c w))) = true.
Proof.
  intros NC A. destruct c as [job status| | | |]; cbn [run_call];
    [| | | congruence | reflexivity].
  - destruct (lock (buf w)) eqn:L.
    + unfold add_job. rewrite with_lock_held by exact L. exact A.
    + rewrite (add_job_eq job status w L).
      destruct (_perf_counter_dt (env w)) as [t e1]. cbv zeta.
      destruct (max_size (buf w) <=? _);
        [destruct (flush_callback (buf w) _ e1) as [[x|] e2]|]; exact A.
  - destruct (events (buf w)) as [|e l] eqn:E.
    + rewrite flush_jobs_nil by exact E. exact A.
    + rewrite flush_jobs_cons by (rewrite E; discriminate).
      destruct (flush_callback (buf w) _ (env w)) as [[x|] e2]; exact A.
  - destruct (lock (buf w)) eqn:L.
    + unfold monitor_wake. rewrite with_lock_held by exact L. exact A.
    + destruct (monitor_wake_once w L) as [_ [-> _]]. exact A.
Qed.

Lemma run_calls_keep_alive (cs : list call) (w : World) :
  Forall (fun c => c <> AliveClear) cs ->
  alive (buf w) = true ->
  alive (buf (run_calls cs w)) = true.
Proof.
  intros F. revert w. induction F as [|c cs NC F IH]; intros w A;
    [exact A|].
  cbn [run_calls]. apply IH, run_call_keeps_alive; assumption.
Qed.

Lemma monitor_wake_returns (w : World) :
  lock (buf w) = false ->
  (forall batch e, fst (flush_callback (buf w) batch e) = None) ->
  fst (monitor_wake w) = Ok tt.
Proof.
  intros L F. rewrite (monitor_wake_eq w L).
  destruct (_perf_counter_dt (env w)) as [t e1]. cbv zeta.
  destruct (_ && _); [|reflexivity].
  pose proof (F (events (buf w)) e1) as F1.
  destruct (flush_callback (buf w) _ e1) as [[x|] e2];
    [discriminate F1|reflexivity].
Qed.

(** X10.  While nobody clears [alive] and the callback never raises, the
    monitor does not stop: at the end of every schedule it is still in its
    loop. *)
Theorem monitor_keeps_running (sched : list (list call)) (w : World) :
  lock (buf w) = false ->
  alive (buf w) = true ->
  (forall batch e, fst (flush_callback (buf w) batch e) = None) ->
  Forall (Forall (fun c => c <> AliveClear)) sched ->
  fst (monitor sched w) = Ok Running.
Proof.
  intros L A F S. revert w L A F.
  induction S as [|during sched D S IH]; intros w L A F.
  - cbn. rewrite A. reflexivity.
  - cbn [monitor]. rewrite A. unfold bind.
    pose proof (run_calls_lock_free during w L) as L1.
    pose proof (run_calls_keep_alive during w D A) as A1.
    destruct (run_calls_config during w) as [_ [_ C1]].
    assert (F1 : forall batch e,
               fst (flush_callback (buf (run_calls during w)) batch e) =
               None).
    { intros batch e. rewrite C1. apply F. }
    pose proof (monitor_wake_returns _ L1 F1) as R.
    destruct (monitor_wake_once _ L1) as [_ [A2 _]].
    pose proof (run_call_lock_free MonitorWake _ L1) as L2.
    destruct (run_call_config MonitorWake (run_calls during w))
      as [_ [_ C2]].
    cbn [run_call] in L2, C2.
    destruct (monitor_wake (run_calls during w)) as [r w2].
    cbn [fst snd] in *. subst r. apply IH.
    + exact L2.
    + rewrite A2. exact A1.
    + intros batch e. rewrite C2. apply F1.
Qed.

(** ** Nothing to flush *)

Lemma run_calls_idle (cs : list call) (w : World) :
  lock (buf w) = false ->
  events (buf w) = [] ->
  entries_of cs = [] ->
  batches (written w (run_calls cs w)) = [] /\
  events (buf (run_calls cs w)) = [].
Proof.
  revert w. induction cs as [|c cs IH]; intros w L E N.
  - cbn. rewrite written_same by reflexivity. auto.
  - cbn [run_calls].
    assert (N1 : entries_of [c] = [] /\ entries_of cs = []).
    { destruct c; cbn in N |- *; solve [discriminate N | auto]. }
    destruct N1 as [N1 N2].
    destruct (run_call_shape c w) as [d1 [T1 S1]].
    pose proof (run_call_appended c w L) as A1.
    rewrite (written_app _ _ _ T1), N1 in A1.
    assert (Q : batches d1 = [] /\ events (buf (snd (run_call c w))) = []).
    { destruct S1; cbn in A1 |- *; try discriminate A1;
        try contradiction; split; congruence. }
    destruct Q as [B1 E1].
    destruct (IH _ (run_call_lock_free c w L) E1 N2) as [B2 E2].
    split; [|exact E2].
    destruct (run_calls_ledger cs (snd (run_call c w))) as [d2 [T2 _]].
    rewrite (written_app _ _ _ T2) in B2.
    rewrite (written_app w _ (d1 ++ d2)).
    + rewrite batches_app, B1, B2. reflexivity.
    + rewrite T2, T1, app_assoc. reflexivity.
Qed.

(** X11.  On a buffer with nothing pending and the lock free, calls other
    than [add_job] never invoke the callback, whatever the clock reads; in
    particular a monitor running on a buffer nobody adds to never invokes
    it, however long it runs. *)
Theorem no_entries_no_callback
    (cs : list call) (sched : list (list call)) (w : World) :
  lock (buf w) = false ->
  events (buf w) = [] ->
  (entries_of cs = [] ->
   batches (written w (run_calls cs w)) = [] /\
   events (buf (run_calls cs w)) = []) /\
  (entries_of (concat sched) = [] ->
   batches (written w (snd (monitor sched w))) = [] /\
   events (buf (snd (monitor sched w))) = []).
Proof.
  intros L E. split; [apply run_calls_idle; assumption|].
  intros N. destruct (monitor_as_calls sched w) as [cs0 [k [-> N0]]].
  apply run_calls_idle; try assumption.
  rewrite N0. rewrite <- (firstn_skipn k sched) in N.
  rewrite concat_app, entries_of_app in N.
  apply app_eq_nil in N. apply N.
Qed.

(** ** The timeout counts from the last event *)

(** X12.  The timeout runs from the last [add_job], not from the oldest
    pending entry: a wake-up that follows an [add_job] stamped [s] and reads
    the clock at [t] with [t - s < timeout] flushes nothing, however long
    the entries before it have been waiting. *)
Theorem add_job_postpones_timeout_flush
    (job : Job) (status : STATUS_LOG) (w : World) :
  lock (buf w) = false ->
  let w1 := snd (add_job job status w) in
  let s := fst (_perf_counter_dt (env w)) in
  let t := fst (_perf_counter_dt (env w1)) in
  t - s < timeout (buf w) ->
  batches (written w1 (snd (monitor_wake w1))) = [] /\
  events (buf (snd (monitor_wake w1))) = events (buf w1).
Proof.
  intros L. cbv zeta.
  pose proof (run_call_lock_free (AddJob job status) w L) as L1.
  pose proof (run_call_config (AddJob job status) w) as [_ [T1 _]].
  cbn [run_call] in L1, T1.
  assert (S1 : last_event_time (buf (snd (add_job job status w))) =
               fst (_perf_counter_dt (env w))).
  { rewrite (add_job_eq job status w L).
    destruct (_perf_counter_dt (env w)) as [t1 e1]. cbv zeta.
    destruct (max_size (buf w) <=? _); [|reflexivity].
    destruct (flush_callback (buf w) _ e1) as [[x|] e2]; reflexivity. }
  revert L1 T1 S1. generalize (snd (add_job job status w)) as w1.
  intros w1 L1 T1 S1 H.
  rewrite (monitor_wake_eq w1 L1).
  destruct (_perf_counter_dt (env w1)) as [t e1]. cbv zeta. cbn [fst] in H.
  assert (G : (timeout (buf w1) <=? t - last_event_time (buf w1)) = false).
  { apply Z.leb_gt. rewrite T1, S1. exact H. }
  rewrite G. cbn [andb].
  erewrite written_app; [|cbn; rewrite <- app_assoc; reflexivity].
  split; reflexivity.
Qed.


(** * The lock, reads included *)

(** What [flush_jobs_logged] does: what [flush_jobs] does, and a log that
    starts with the read of [events]. *)
Lemma flush_jobs_logged_eq (w : World) (l : list access) :
  exists d,
    flush_jobs_logged (w, l) =
      (fst (flush_jobs w), (snd (flush_jobs w), l ++ ReadEvents :: d)) /\
    (d = [] \/
     d = [ReadEvents; AwaitCallback] \/
     d = [ReadEvents; AwaitCallback; WriteEvents]) /\
    (events (buf w) <> [] -> In AwaitCallback d).
Proof.
  destruct (events (buf w)) as [|e0 l0] eqn:E.
  - exists []. rewrite (flush_jobs_nil w E).
    unfold flush_jobs_logged, bindL, note, lift, get, retL. cbn.
    rewrite E. split; [reflexivity|]. split; [auto|congruence].
  - rewrite flush_jobs_cons by (rewrite E; discriminate).
    unfold flush_jobs_logged, bindL, note, lift, get, put, emit,
      call_flush_callback, retL. cbn. rewrite E. cbn.
    destruct (flush_callback (buf w) (e0 :: l0) (env w)) as [[x|] e2]; cbn.
    + exists [ReadEvents; AwaitCallback]. rewrite <- !app_assoc. cbn.
      split; [reflexivity|]. split; [auto|]. intros _. cbn. auto.
    + exists [ReadEvents; AwaitCallback; WriteEvents].
      rewrite <- !app_assoc. cbn.
      split; [reflexivity|]. split; [auto|]. intros _. cbn. auto.
Qed.

Lemma with_lock_logged_held {A} (body : Logged A) (w : World)
    (l : list access) :
  lock (buf w) = true -> with_lock_logged body (w, l) = (Blocked, (w, l)).
Proof. intros L. unfold with_lock_logged. cbn. rewrite L. reflexivity. Qed.

(** What [add_job_logged] does when it gets the lock. *)
Lemma add_job_logged_eq (job : Job) (status : STATUS_LOG) (w : World) :
  lock (buf w) = false ->
  exists d,
    add_job_logged job status (w, []) =
      (fst (add_job job status w),
       (snd (add_job job status w),
        [TakeLock; WriteEvents; WriteLastEventTime; ReadEvents] ++
        d ++ [GiveLock])) /\
    (d = [] \/
     d = [ReadEvents] \/
     d = [ReadEvents; ReadEvents; AwaitCallback] \/
     d = [ReadEvents; ReadEvents; AwaitCallback; WriteEvents]).
Proof.
  intros L. rewrite (add_job_eq job status w L).
  unfold add_job_logged, with_lock_logged. cbn [fst snd]. rewrite L.
  unfold bindL, note, lift, get, put, emit, now, retL. cbn.
  destruct (_perf_counter_dt (env w)) as [t e1]. cbn.
  destruct (max_size (buf w) <=? _) eqn:G.
  - match goal with
    | |- context [flush_jobs_logged (?v, ?l)] =>
        destruct (flush_jobs_logged_eq v l) as [d [Q [D _]]]; rewrite Q;
        rewrite flush_jobs_cons by (cbn; apply snoc_not_nil)
    end.
    cbn.
    destruct (flush_callback (buf w) _ e1) as [[x|] e2]; cbn;
      exists (ReadEvents :: d);
      (split;
       [rewrite <- !app_assoc; reflexivity
       |destruct D as [-> | [-> | ->]]; auto]).
  - exists []. cbn. rewrite <- !app_assoc. split; [reflexivity|auto].
Qed.

Lemma flush_jobs_not_blocked (w : World) : fst (flush_jobs w) <> Blocked.
Proof.
  destruct (events (buf w)) as [|e l] eqn:E.
  - rewrite flush_jobs_nil by exact E. discriminate.
  - rewrite flush_jobs_cons by (rewrite E; discriminate).
    destruct (flush_callback (buf w) _ (env w)) as [[x|] e2]; discriminate.
Qed.

(** What [monitor_wake_logged] does when it gets the lock. *)
Lemma monitor_wake_logged_eq (w : World) :
  lock (buf w) = false ->
  exists d,
    monitor_wake_logged (w, []) =
      (fst (monitor_wake w),
       (snd (monitor_wake w),
        [TakeLock; ReadLastEventTime] ++ d ++ [GiveLock])) /\
    (d = [] \/
     d = [ReadEvents] \/
     d = [ReadEvents; ReadEvents; AwaitCallback] \/
     d = [ReadEvents; ReadEvents; AwaitCallback; WriteEvents]).
Proof.
  intros L. unfold monitor_wake_logged, monitor_wake, with_lock_logged,
    with_lock. cbn [fst snd]. rewrite L.
  unfold bindL, bind, note, lift, get, now, retL, ret. cbn.
  destruct (_perf_counter_dt (env w)) as [t e1]. cbn.
  destruct (timeout (buf w) <=? _).
  - match goal with
    | |- context [flush_jobs_logged (?v, ?l)] =>
        destruct (flush_jobs_logged_eq v l) as [d [Q [D _]]]; rewrite Q;
        pose proof (flush_jobs_not_blocked v) as NB;
        destruct (flush_jobs v) as [[[]|x|] w2]
    end;
      cbn in NB |- *; [| |congruence]; exists (ReadEvents :: d);
      (split; [reflexivity|destruct D as [-> | [-> | ->]]; auto]).
  - exists []. cbn. split; [reflexivity|auto].
Qed.

Lemma unlogged_eq {A} (m : Logged A) (w : World) (r : res A * World)
    (l : list access) :
  m (w, []) = (fst r, (snd r, l)) -> unlogged m w = r /\ accesses m w = l.
Proof.
  intros H. unfold unlogged, accesses. rewrite H. destruct r; auto.
Qed.


(** * A direct flush overlapped by [add_job] *)

Lemma flush_jobs_overlapped_cons (during : list call) (w : World) :
  events (buf w) <> [] ->
  flush_jobs_overlapped during w =
  let (r, e) := flush_callback (buf w) (events (buf w)) (env w) in
  let w1 :=
    run_calls during
      (mkWorld (buf w) e (trace w ++ [Callback (events (buf w)) r])) in
  match r with
  | Some x => (Raise x, w1)
  | None =>
      (Ok tt,
       mkWorld (set_events [] (buf w1)) (env w1) (trace w1 ++ [Clear]))
  end.
Proof.
  intros NE. unfold flush_jobs_overlapped, bind, get.
  destruct (events (buf w)) as [|e0 l0] eqn:E; [congruence|].
  cbn. rewrite E.
  destruct (flush_callback (buf w) (e0 :: l0) (env w)) as [[x|] e];
    reflexivity.
Qed.


End Model.

Arguments Ok {Exn A} a.
Arguments Raise {Exn A} x.
Arguments Blocked {Exn A}.
Arguments Acquire {Job STATUS_LOG Exn}.
Arguments Release {Job STATUS_LOG Exn}.
Arguments Append {Job STATUS_LOG Exn} e.
Arguments Stamp {Job STATUS_LOG Exn} t.
Arguments Callback {Job STATUS_LOG Exn} batch raised.
Arguments Clear {Job STATUS_LOG Exn}.
Arguments AddJob {Job STATUS_LOG} job status.
Arguments FlushJobs {Job STATUS_LOG}.
Arguments MonitorWake {Job STATUS_LOG}.
Arguments AliveClear {Job STATUS_LOG}.
Arguments AliveSet {Job STATUS_LOG}.
Arguments max_size {Job STATUS_LOG Exn Env} j.
Arguments timeout {Job STATUS_LOG Exn Env} j.
Arguments flush_callback {Job STATUS_LOG Exn Env} j.
Arguments alive {Job STATUS_LOG Exn Env} j.
Arguments events {Job STATUS_LOG Exn Env} j.
Arguments last_event_time {Job STATUS_LOG Exn Env} j.
Arguments lock {Job STATUS_LOG Exn Env} j.
Arguments buf {Job STATUS_LOG Exn Env} w.
Arguments env {Job STATUS_LOG Exn Env} w.
Arguments trace {Job STATUS_LOG Exn Env} w.
Arguments __init__ {Job STATUS_LOG Exn Env} _perf_counter_dt.
Arguments flush_jobs {Job STATUS_LOG Exn Env} w : rename.
Arguments add_job {Job STATUS_LOG Exn Env} _perf_counter_dt job status w
  : rename.
Arguments monitor_wake {Job STATUS_LOG Exn Env} _perf_counter_dt w : rename.
Arguments add_jobs {Job STATUS_LOG Exn Env} _perf_counter_dt l w : rename.
Arguments run_call {Job STATUS_LOG Exn Env} _perf_counter_dt c w : rename.
Arguments run_calls {Job STATUS_LOG Exn Env} _perf_counter_dt cs w.
Arguments monitor {Job STATUS_LOG Exn Env} _perf_counter_dt sched w : rename.
Arguments batches {Job STATUS_LOG Exn} tr.
Arguments appended {Job STATUS_LOG Exn} tr.
Arguments no_success {Job STATUS_LOG Exn} tr.
Arguments lock_disciplined {Job STATUS_LOG Exn} held tr.
Arguments written {Job STATUS_LOG Exn Env} w w'.
Arguments always_fails {Job STATUS_LOG Exn Env} b.
Arguments add_call {Job STATUS_LOG} e.
Arguments entries_of {Job STATUS_LOG} cs.
Arguments delivered {Job STATUS_LOG Exn} tr.
Arguments flush_jobs_overlapped {Job STATUS_LOG Exn Env} _perf_counter_dt
  during w : rename.
Arguments flush_jobs_logged {Job STATUS_LOG Exn Env} s : rename.
Arguments add_job_logged {Job STATUS_LOG Exn Env} _perf_counter_dt
  job status s : rename.
Arguments monitor_wake_logged {Job STATUS_LOG Exn Env} _perf_counter_dt s
  : rename.
Arguments accesses {Job STATUS_LOG Exn Env A} m w.
Arguments unlogged {Job STATUS_LOG Exn Env A} m w.

(** ** Concrete runs

    Jobs, statuses and exceptions are integers and the outside world is a
    [Script.t]. *)

Lemma flush_jobs_empty_is_noop_witness :
  let w := __init__ Script.clock 3 5 Script.sink (Script.mk [10] []) in
  events (buf w) = [] /\
  flush_jobs w = (Ok tt, w) /\
  batches (trace (snd (flush_jobs w))) = batches (trace w).
Proof.
  intros w. split; [reflexivity|].
  apply (flush_jobs_empty_is_noop Z Z Z Script.t w).
  reflexivity.
Defined.

(** A direct flush of one pending entry whose callback raises 7. *)
Lemma failed_flush_keeps_events_and_raises_witness :
  let w := snd (add_job Script.clock 1 2
             (__init__ Script.clock 3 5 Script.sink
                       (Script.mk [10; 11] [Some 7]))) in
  In (Callback [(1, 2)] (Some 7))
     (written w (snd (run_call Script.clock FlushJobs w))) /\
  fst (run_call Script.clock FlushJobs w) = Raise 7 /\
  events (buf (snd (run_call Script.clock FlushJobs w))) = [(1, 2)].
Proof.
  intros w.
  assert (H : In (Callback [(1, 2)] (Some 7))
                 (written w (snd (run_call Script.clock FlushJobs w)))).
  { vm_compute. left. reflexivity. }
  split; [exact H|].
  destruct (failed_flush_keeps_events_and_raises
              Z Z Z Script.t Script.clock FlushJobs w _ _ H)
    as [R [E _]].
  split; [exact R|exact E].
Defined.


Lemma last_event_time_frame_witness :
  let w := __init__ Script.clock 3 5 Script.sink (Script.mk [4; 9] []) in
  lock (buf w) = false /\
  last_event_time (buf w) = 4 /\
  last_event_time (buf (snd (add_job Script.clock 1 2 w))) = 9.
Proof.
  intros w. assert (L : lock (buf w) = false) by reflexivity.
  split; [exact L|].
  destruct (last_event_time_frame
              Z Z Z Script.t Script.clock
              3 5 Script.sink (Script.mk [4; 9] []) 1 2 w w L)
    as [I [A _]].
  split; [exact I|exact A].
Defined.

(** Two producers' worth of calls against a callback that always raises
    7: capacity 1, three entries retained. *)
Lemma events_grow_while_callback_fails_witness :
  let w := __init__ Script.clock 1 5
             (fun (_ : list (Z * Z)) (e : Script.t) => (Some 7, e))
             (Script.mk [] []) in
  let l := [(1, 1); (2, 2); (3, 3)] in
  lock (buf w) = false /\
  always_fails (buf w) /\
  events (buf (run_calls Script.clock (map add_call l) w)) = l /\
  max_size (buf (run_calls Script.clock (map add_call l) w)) <
  Z.of_nat (length (events (buf (run_calls Script.clock (map add_call l) w)))).
Proof.
  intros w l. assert (L : lock (buf w) = false) by reflexivity.
  assert (F : always_fails (buf w)).
  { intros batch e. cbn. discriminate. }
  split; [exact L|]. split; [exact F|].
  destruct (events_grow_while_callback_fails
              Z Z Z Script.t Script.clock [] l w L F) as [_ [A [_ G]]].
  split; [exact A|]. apply G. reflexivity.
Defined.

(** Capacity 5.  An entry is added, a direct flush fails, a second entry is
    added, a direct flush succeeds. *)
Lemma next_successful_flush_resends_failed_batch_witness :
  let w := __init__ Script.clock 5 9 Script.sink
             (Script.mk [0; 1; 2] [Some 7]) in
  let cs := [AddJob 1 1; FlushJobs; AddJob 2 2; FlushJobs] in
  written w (run_calls Script.clock cs w) =
    [Acquire; Append (1, 1); Stamp 1; Release] ++
    Callback [(1, 1)] (Some 7) ::
    [Acquire; Append (2, 2); Stamp 2; Release] ++
    Callback [(1, 1); (2, 2)] None :: [Clear] /\
  no_success
    ([Acquire; Append (2, 2); Stamp 2; Release] : list (action Z Z Z)) = true /\
  [(1, 1); (2, 2)] =
    [(1, 1)] ++
    appended ([Acquire; Append (2, 2); Stamp 2; Release] : list (action Z Z Z)).
Proof.
  intros w cs.
  assert (T : written w (run_calls Script.clock cs w) =
              [Acquire; Append (1, 1); Stamp 1; Release] ++
              Callback [(1, 1)] (Some 7) ::
              [Acquire; Append (2, 2); Stamp 2; Release] ++
              Callback [(1, 1); (2, 2)] None :: [Clear]) by reflexivity.
  split; [exact T|]. split; [reflexivity|].
  exact (next_successful_flush_resends_failed_batch
           Z Z Z Script.t Script.clock cs w _ _ _ _ _ _ T eq_refl).
Defined.

(** The claim without "next": the flush that follows the redelivery is a
    later successful flush, and it is handed the new entry alone. *)
Lemma later_successful_flush_without_failed_batch :
  let w := __init__ Script.clock 5 9 Script.sink
             (Script.mk [0; 1; 2] [Some 7]) in
  let cs := [AddJob 1 1; FlushJobs; FlushJobs; AddJob 2 2; FlushJobs] in
  written w (run_calls Script.clock cs w) =
    [Acquire; Append (1, 1); Stamp 1; Release] ++
    Callback [(1, 1)] (Some 7) ::
    [Callback [(1, 1)] None; Clear;
     Acquire; Append (2, 2); Stamp 2; Release] ++
    Callback [(2, 2)] None :: [Clear] /\
  ~ (exists newer : list (Z * Z), [(2, 2)] = [(1, 1)] ++ newer).
Proof.
  intros w cs. split; [reflexivity|].
  intros [newer H]. discriminate H.
Qed.


Lemma lock_taken_by_add_job_and_monitor_wake_witness :
  let w := snd (add_job Script.clock 1 2
             (__init__ Script.clock 3 5 Script.sink (Script.mk [] []))) in
  lock_disciplined false
    (written w (snd (run_call Script.clock (AddJob 3 4) w))) = true.
Proof.
  intros w.
  destruct (lock_taken_by_add_job_and_monitor_wake
              Z Z Z Script.t Script.clock (AddJob 3 4) w) as [H _].
  apply H. discriminate.
Defined.





(** Capacity 2; the second [add_job] raises, the third delivers all three
    entries. *)
Lemma nothing_lost_nothing_twice_witness :
  let w := __init__ Script.clock 2 5 Script.sink
             (Script.mk [] [Some 7]) in
  let cs := [AddJob 1 1; AddJob 2 2; AddJob 3 3] in
  lock (buf w) = false /\
  appended (written w (run_calls Script.clock cs w)) =
    [(1, 1); (2, 2); (3, 3)] /\
  concat (delivered (written w (run_calls Script.clock cs w))) ++
    events (buf (run_calls Script.clock cs w)) =
    events (buf w) ++ appended (written w (run_calls Script.clock cs w)).
Proof.
  intros w cs. assert (L : lock (buf w) = false) by reflexivity.
  split; [exact L|].
  destruct (nothing_lost_nothing_twice
              Z Z Z Script.t Script.clock cs [] w) as [C [_ A]].
  split; [exact (A L)|exact C].
Defined.

(** Capacity 1 and a callback that raises: the lock is free again. *)
Lemma lock_released_on_every_exit_witness :
  let w := __init__ Script.clock 1 5 Script.sink
             (Script.mk [] [Some 7]) in
  lock (buf w) = false /\
  fst (run_call Script.clock (AddJob 1 1) w) = Raise 7 /\
  lock (buf (snd (run_call Script.clock (AddJob 1 1) w))) = false.
Proof.
  intros w. assert (L : lock (buf w) = false) by reflexivity.
  split; [exact L|]. split; [reflexivity|].
  exact (proj1 (proj2 (lock_released_on_every_exit
                         Z Z Z Script.t Script.clock
                         (AddJob 1 1) [] [] w L))).
Defined.

Lemma call_outcome_witness :
  let w := snd (add_job Script.clock 1 2
             (__init__ Script.clock 3 5 Script.sink
                       (Script.mk [] [Some 7]))) in
  fst (run_call Script.clock FlushJobs w) = Raise 7 /\
  In (Callback (events (buf (snd (run_call Script.clock FlushJobs w))))
               (Some 7))
     (written w (snd (run_call Script.clock FlushJobs w))).
Proof.
  intros w.
  assert (R : fst (run_call Script.clock FlushJobs w) = Raise 7)
    by reflexivity.
  split; [exact R|].
  exact (proj1 (call_outcome Z Z Z Script.t Script.clock FlushJobs w) 7 R).
Defined.

Lemma add_job_returns_below_capacity_witness :
  let w := __init__ Script.clock 2 5 Script.sink (Script.mk [] []) in
  lock (buf w) = false /\
  fst (add_job Script.clock 1 1 w) = Ok tt /\
  (events (buf (snd (add_job Script.clock 1 1 w))) = [] \/
   Z.of_nat (length (events (buf (snd (add_job Script.clock 1 1 w))))) <
   max_size (buf (snd (add_job Script.clock 1 1 w)))).
Proof.
  intros w. assert (L : lock (buf w) = false) by reflexivity.
  assert (R : fst (add_job Script.clock 1 1 w) = Ok tt) by reflexivity.
  split; [exact L|]. split; [exact R|].
  exact (add_job_returns_below_capacity
           Z Z Z Script.t Script.clock 1 1 w L R).
Defined.

Lemma retried_add_job_appends_twice_witness :
  let w := __init__ Script.clock 1 5 Script.sink
             (Script.mk [] [Some 7]) in
  let w1 := snd (add_job Script.clock 1 1 w) in
  lock (buf w) = false /\
  fst (add_job Script.clock 1 1 w) = Raise 7 /\
  batches (written w1 (snd (add_job Script.clock 1 1 w1))) =
    [[(1, 1); (1, 1)]].
Proof.
  intros w w1. assert (L : lock (buf w) = false) by reflexivity.
  assert (R : fst (add_job Script.clock 1 1 w) = Raise 7) by reflexivity.
  split; [exact L|]. split; [exact R|].
  exact (proj2 (retried_add_job_appends_twice
                  Z Z Z Script.t Script.clock 1 1 w 7 L R)).
Defined.

Lemma flush_jobs_twice_witness :
  let w := snd (add_job Script.clock 1 2
             (__init__ Script.clock 3 5 Script.sink (Script.mk [] []))) in
  fst (flush_jobs w) = Ok tt /\
  flush_jobs (snd (flush_jobs w)) = (Ok tt, snd (flush_jobs w)).
Proof.
  intros w. assert (R : fst (flush_jobs w) = Ok tt) by reflexivity.
  split; [exact R|].
  exact (flush_jobs_twice Z Z Z Script.t w R).
Defined.

Lemma monitor_state_follows_alive_witness :
  let w := __init__ Script.clock 3 5 Script.sink (Script.mk [] []) in
  let sched := [[AliveClear]; []] in
  fst (monitor Script.clock sched w) = Ok Stopped /\
  alive (buf (snd (monitor Script.clock sched w))) = false.
Proof.
  intros w sched.
  assert (R : fst (monitor Script.clock sched w) = Ok Stopped)
    by reflexivity.
  split; [exact R|].
  exact (proj1 (monitor_state_follows_alive
                  Z Z Z Script.t Script.clock sched w) R).
Defined.

Lemma monitor_keeps_running_witness :
  let w := __init__ Script.clock 3 5
             (fun (_ : list (Z * Z)) (e : Script.t) => (@None Z, e))
             (Script.mk [0; 1; 9] []) in
  let sched := [[AddJob 1 1]; [AliveSet; FlushJobs]] in
  lock (buf w) = false /\
  alive (buf w) = true /\
  fst (monitor Script.clock sched w) = Ok Running.
Proof.
  intros w sched.
  assert (L : lock (buf w) = false) by reflexivity.
  assert (A : alive (buf w) = true) by reflexivity.
  split; [exact L|]. split; [exact A|].
  apply (monitor_keeps_running Z Z Z Script.t Script.clock sched w L A).
  - intros batch e. reflexivity.
  - repeat constructor; discriminate.
Defined.

Lemma no_entries_no_callback_witness :
  let w := __init__ Script.clock 3 5 Script.sink (Script.mk [0; 100] []) in
  let sched := [[]; [FlushJobs]; [MonitorWake]] in
  lock (buf w) = false /\
  events (buf w) = [] /\
  batches (written w (snd (monitor Script.clock sched w))) = [].
Proof.
  intros w sched.
  assert (L : lock (buf w) = false) by reflexivity.
  assert (E : events (buf w) = []) by reflexivity.
  split; [exact L|]. split; [exact E|].
  destruct (no_entries_no_callback
              Z Z Z Script.t Script.clock [] sched w L E) as [_ H].
  apply H. reflexivity.
Defined.

(** One entry has been pending since 1; a second is stamped 10 and the
    monitor wakes at 12 with a timeout of 5. *)
Lemma add_job_postpones_timeout_flush_witness :
  let w := snd (add_job Script.clock 1 1
             (__init__ Script.clock 3 5 Script.sink
                       (Script.mk [0; 1; 10; 12] []))) in
  let w1 := snd (add_job Script.clock 2 2 w) in
  lock (buf w) = false /\
  12 - 10 < timeout (buf w) /\
  batches (written w1 (snd (monitor_wake Script.clock w1))) = [] /\
  events (buf (snd (monitor_wake Script.clock w1))) = [(1, 1); (2, 2)].
Proof.
  intros w w1. assert (L : lock (buf w) = false) by reflexivity.
  assert (H : 12 - 10 < timeout (buf w)) by reflexivity.
  split; [exact L|]. split; [exact H|].
  exact (add_job_postpones_timeout_flush
           Z Z Z Script.t Script.clock 2 2 w L H).
Defined.



(** Capacity 5, the callback raises 7 on its second invocation only.
    First run, calls one after the other: the second flush that returns
    after the failure is handed the new entry alone.  Second run: a direct
    [flush_jobs] is awaiting the callback on [(1,1)] when an [add_job]
    appends [(2,2)] and another direct flush fails on both; the first call
    then clears [events], and the next flush that returns is handed
    [(3,3)] alone: [(2,2)] is in no batch on which the callback
    returned. *)
Lemma flush_after_failure_without_failed_batch :
  (let w := __init__ Script.clock 5 9 Script.sink
              (Script.mk [0; 1; 2] [Some 7]) in
   let cs := [AddJob 1 1; FlushJobs; FlushJobs; AddJob 2 2; FlushJobs] in
   written w (run_calls Script.clock cs w) =
     [Acquire; Append (1, 1); Stamp 1; Release] ++
     Callback [(1, 1)] (Some 7) ::
     [Callback [(1, 1)] None; Clear;
      Acquire; Append (2, 2); Stamp 2; Release] ++
     Callback [(2, 2)] None :: [Clear] /\
   ~ (exists newer : list (Z * Z), [(2, 2)] = [(1, 1)] ++ newer)) /\
  (let w := __init__ Script.clock 5 9 Script.sink
              (Script.mk [0; 1; 2; 3] [None; Some 7]) in
   let w1 := run_calls Script.clock [AddJob 1 1] w in
   let w2 := snd (flush_jobs_overlapped Script.clock
                    [AddJob 2 2; FlushJobs] w1) in
   let w3 := run_calls Script.clock [AddJob 3 3; FlushJobs] w2 in
   written w w3 =
     [Acquire; Append (1, 1); Stamp 1; Release;
      Callback [(1, 1)] None;
      Acquire; Append (2, 2); Stamp 2; Release] ++
     Callback [(1, 1); (2, 2)] (Some 7) ::
     [Clear; Acquire; Append (3, 3); Stamp 3; Release] ++
     Callback [(3, 3)] None :: [Clear] /\
   no_success
     ([Clear; Acquire; Append (3, 3); Stamp 3; Release]
      : list (action Z Z Z)) = true /\
   ~ (exists newer : list (Z * Z), [(3, 3)] = [(1, 1); (2, 2)] ++ newer) /\
   ~ In (2, 2) (concat (delivered (written w w3)))).
Proof.
  split.
  - intros w cs. split; [reflexivity|].
    intros [newer H]. discriminate H.
  - intros w w1 w2 w3. split; [reflexivity|]. split; [reflexivity|].
    split.
    + intros [newer H]. discriminate H.
    + vm_compute. intros [H|[H|[]]]; discriminate H.
Qed.



End Buffers.
